(** * janken-app: a shallow embedding of [app.py] and its verification

    The development follows the layout of the program:
    - [PyStr]: the two [str] methods the program calls ([lower], [strip]),
      together with [split] and the substring test used by [start];
    - [Hand], [ResultStatus], [Choice], [Result]: the data classes;
    - [Session]: the aggregate, its methods written in an exception/state
      monad over the session object;
    - [Redis]: the part of the key-value service that [SessionStore] calls;
    - [SessionStore] and the three request handlers.

    Python [str] values are modelled by [string], one character per code
    point, restricted to the code points U+0000..U+00FF. *)

From Stdlib Require Import Ascii String ZArith NArith Bool.
From stdpp Require Import gmap strings list fin_maps.

(** ** Exceptions

    The classes deriving from [BaseError] in [app.py], plus the two library
    exceptions that can escape from the handlers modelled below. *)
Inductive Error : Type :=
| NotInSessionError
| AlreadyChosenError
| SessionAlreadyExistError
| SessionNotFoundError
| CannotStartTransactionError
| TransactionExpiredError
| NotInTransactionError
| SessionNotClosedError
| UndefinedEnumError
| LockError          (* redis.exceptions.LockError, raised by [Lock.__enter__] *)
| UnpicklingError.   (* pickle.UnpicklingError, raised by [pickle.loads] *)

#[global] Instance Error_eq_dec : EqDecision Error.
Proof. solve_decision. Defined.

(** [is_base_error e] holds for the exception classes the application
    declares itself (each of them has an [errorhandler]). *)
Definition is_base_error (e : Error) : bool :=
  match e with
  | LockError | UnpicklingError => false
  | _ => true
  end.

Inductive outcome (A : Type) : Type :=
| Return (a : A)
| Raise (e : Error).
Arguments Return {A} a.
Arguments Raise {A} e.

(** ** Python strings *)
Module PyStr.

Definition code (c : ascii) : N := N_of_ascii c.

Definition in_range (lo hi n : N) : bool := (lo <=? n)%N && (n <=? hi)%N.

(** [str.isspace] on U+0000..U+00FF: TAB..CR, FS..US, SPACE, NEL, NBSP. *)
Definition is_space (c : ascii) : bool :=
  let n := code c in
  in_range 9 13 n || in_range 28 32 n || (n =? 133)%N || (n =? 160)%N.

(** Upper-case letters of U+0000..U+00FF: A..Z and U+00C0..U+00DE
    without the multiplication sign U+00D7. *)
Definition is_upper (c : ascii) : bool :=
  let n := code c in
  in_range 65 90 n || (in_range 192 222 n && negb (n =? 215)%N).

Definition lower_char (c : ascii) : ascii :=
  if is_upper c then ascii_of_N (code c + 32) else c.

(** [s.lower()] *)
Fixpoint lower (s : string) : string :=
  match s with
  | EmptyString => EmptyString
  | String c s' => String (lower_char c) (lower s')
  end.

Fixpoint lstrip (s : string) : string :=
  match s with
  | EmptyString => EmptyString
  | String c s' => if is_space c then lstrip s' else s
  end.

Fixpoint rstrip (s : string) : string :=
  match s with
  | EmptyString => EmptyString
  | String c s' =>
      match rstrip s' with
      | EmptyString => if is_space c then EmptyString else String c EmptyString
      | r => String c r
      end
  end.

(** [s.strip()] *)
Definition strip (s : string) : string := rstrip (lstrip s).

(** [sep in s] for a one-character [sep] *)
Fixpoint contains_char (sep : ascii) (s : string) : bool :=
  match s with
  | EmptyString => false
  | String c s' => if Ascii.eqb c sep then true else contains_char sep s'
  end.

(** [s.split(sep)] for a one-character [sep]: the accumulator [cur]
    holds the field read so far. *)
Fixpoint split_aux (sep : ascii) (cur : string) (s : string) : list string :=
  match s with
  | EmptyString => [cur]
  | String c s' =>
      if Ascii.eqb c sep then cur :: split_aux sep EmptyString s'
      else split_aux sep (cur +:+ String c EmptyString) s'
  end.

Definition split (sep : ascii) (s : string) : list string :=
  split_aux sep EmptyString s.

Fixpoint count_char (sep : ascii) (s : string) : nat :=
  match s with
  | EmptyString => 0
  | String c s' => (if Ascii.eqb c sep then 1 else 0) + count_char sep s'
  end.

(** Every character of [s] is white space. *)
Fixpoint all_space (s : string) : bool :=
  match s with
  | EmptyString => true
  | String c s' => is_space c && all_space s'
  end.

(** [same_letters a b]: [a] and [b] have the same length and agree
    position by position up to letter case. *)
Inductive same_letters : string -> string -> Prop :=
| same_nil : same_letters EmptyString EmptyString
| same_cons c1 c2 s1 s2 :
    lower_char c1 = lower_char c2 ->
    same_letters s1 s2 ->
    same_letters (String c1 s1) (String c2 s2).

(** [a] and [b] differ only in letter case and surrounding white space. *)
Definition differ_case_ws (a b : string) : Prop :=
  exists pa ca qa pb cb qb,
    a = pa +:+ ca +:+ qa /\ b = pb +:+ cb +:+ qb /\
    all_space pa = true /\ all_space qa = true /\
    all_space pb = true /\ all_space qb = true /\
    same_letters ca cb.

End PyStr.

(** ** Enumerations and value classes *)
Inductive Hand : Type := Rock | Scissors | Paper.

#[global] Instance Hand_eq_dec : EqDecision Hand.
Proof. solve_decision. Defined.

Definition Hand_value (h : Hand) : Z :=
  match h with Rock => 1 | Scissors => 2 | Paper => 3 end.

(** [Hand.from_str] *)
Definition from_str (hand : string) : outcome Hand :=
  let hand := PyStr.strip (PyStr.lower hand) in
  if String.eqb hand "rock" then Return Rock
  else if String.eqb hand "scissors" then Return Scissors
  else if String.eqb hand "paper" then Return Paper
  else Raise UndefinedEnumError.

(** The hand named by a word, as the specification lists them. *)
Definition hand_of_name (w : string) : option Hand :=
  if decide (w = "rock") then Some Rock
  else if decide (w = "scissors") then Some Scissors
  else if decide (w = "paper") then Some Paper
  else None.

Inductive ResultStatus : Type := Draw | RockWin | ScissorsWin | PaperWin.

Definition ResultStatus_value (r : ResultStatus) : Z :=
  match r with Draw => 1 | RockWin => 2 | ScissorsWin => 3 | PaperWin => 4 end.

Record Choice : Type := mkChoice { user : string; hand : Hand }.

(** [winners] defaults to [None] in [Result.__init__]. *)
Record Result : Type := mkResult { status : ResultStatus; winners : option (list string) }.

(** ** Python dictionaries

    A [dict] keeps its entries in insertion order, and [judge] reads them
    in that order, so the dictionary is an association list: assigning to
    a key that is present replaces the value in place, assigning to a new
    key appends an entry. *)
Module PyDict.

Abbreviation dict V := (list (string * V)%type) (only parsing).

Definition keys {V} (d : dict V) : list string := d.*1.
Definition values {V} (d : dict V) : list V := d.*2.

(** [k in d] *)
Definition contains {V} (k : string) (d : dict V) : bool :=
  bool_decide (k ∈ keys d).

(** [d[k] = v] *)
Fixpoint setitem {V} (k : string) (v : V) (d : dict V) : dict V :=
  match d with
  | [] => [(k, v)]
  | (k', v') :: d' =>
      if String.eqb k' k then (k, v) :: d' else (k', v') :: setitem k v d'
  end.

(** The number of entries stored under [k]. *)
Definition entries {V} (k : string) (d : dict V) : nat :=
  length (filter (λ kv, kv.1 = k) d).

End PyDict.

(** ** Session *)
Record Session : Type := mkSession {
  session_id : string;
  users : list string;
  choices : PyDict.dict Choice
}.

(** What a caller may pass as [users] to [Session.__init__]: an iterable
    that is not a [dict], a [dict], or an object without [__iter__]. *)
Inductive users_arg : Type :=
| UsersIterable (l : list string)
| UsersDict (d : PyDict.dict string)
| UsersNotIterable.

(** [Session.__init__]; [uuid] is the value of [str(uuid.uuid4())]. *)
Definition Session_init (uuid : string) (arg : users_arg) : Session :=
  {| session_id := uuid;
     users := match arg with
              | UsersIterable l => l
              | UsersDict _ | UsersNotIterable => []
              end;
     choices := [] |}.

(** A method of [Session] reads and writes [self] and returns or raises. *)
Definition method (A : Type) : Type := Session -> outcome A * Session.

Definition ret {A} (a : A) : method A := λ self, (Return a, self).
Definition raise {A} (e : Error) : method A := λ self, (Raise e, self).
Definition get_users : method (list string) := λ self, (Return (users self), self).
Definition get_choices : method (PyDict.dict Choice) :=
  λ self, (Return (choices self), self).
Definition set_choice (k : string) (c : Choice) : method unit :=
  λ self, (Return tt,
           {| session_id := session_id self;
              users := users self;
              choices := PyDict.setitem k c (choices self) |}).
Definition bind {A B} (m : method A) (f : A -> method B) : method B :=
  λ self, match m self with
          | (Return a, self') => f a self'
          | (Raise e, self') => (Raise e, self')
          end.

#[global] Instance method_ret : MRet method := @ret.
#[global] Instance method_bind : MBind method := λ A B f m, bind m f.

(** [Session.choose] *)
Definition choose (user : string) (hand : Hand) : method unit :=
  us ← get_users;
  cs ← get_choices;
  if bool_decide (user ∈ us) && negb (PyDict.contains user cs) then
    set_choice user (mkChoice user hand)
  else if PyDict.contains user cs then
    raise AlreadyChosenError
  else
    raise NotInSessionError.

(** The loop body of [Session.judge]. *)
Definition judge_step (acc : list string * list string * list string) (choice : Choice)
  : list string * list string * list string :=
  let '(rocks, scissors, papers) := acc in
  match hand choice with
  | Rock => (rocks ++ [user choice], scissors, papers)
  | Scissors => (rocks, scissors ++ [user choice], papers)
  | Paper => (rocks, scissors, papers ++ [user choice])
  end.

(** Truth value of a list. *)
Definition truthy {A} (l : list A) : bool :=
  match l with [] => false | _ => true end.

(** [Session.judge] *)
Definition judge : method Result :=
  cs ← get_choices;
  let '(rocks, scissors, papers) := fold_left judge_step (PyDict.values cs) ([], [], []) in
  if truthy rocks && truthy scissors && truthy papers then ret (mkResult Draw None)
  else if truthy rocks && truthy scissors then ret (mkResult RockWin (Some rocks))
  else if truthy scissors && truthy papers then ret (mkResult ScissorsWin (Some scissors))
  else if truthy papers && truthy rocks then ret (mkResult PaperWin (Some papers))
  else ret (mkResult Draw None).

(** [Session.result] *)
Definition result : method Result :=
  us ← get_users;
  cs ← get_choices;
  let all_users : gset string := list_to_set us in
  let chose_users : gset string := list_to_set (PyDict.keys cs) in
  if bool_decide (all_users = chose_users) then judge
  else raise SessionNotClosedError.

(** Method calls a holder of a session can make, and runs of them. *)
Inductive call : Type :=
| CallChoose (user : string) (hand : Hand)
| CallResult
| CallJudge.

Definition exec (c : call) (self : Session) : Session :=
  match c with
  | CallChoose u h => (choose u h self).2
  | CallResult => (result self).2
  | CallJudge => (judge self).2
  end.

Definition run (cs : list call) (self : Session) : Session :=
  fold_left (λ s c, exec c s) cs self.

(** Sessions that the program can hold: built by the constructor and then
    used through the methods only (the attributes are private). *)
Definition reachable (s : Session) : Prop :=
  ∃ uuid arg cs, s = run cs (Session_init uuid arg).

(** The participants recorded with hand [h] in the choices of [s], in the
    order their choices were made. *)
Definition throwers (h : Hand) (s : Session) : list string :=
  PyDict.keys (filter (λ kv, hand kv.2 = h) (choices s)).

(** The representation invariant of a session: every entry of [choices]
    is filed under a participant and holds that participant's own choice,
    and no key occurs twice. *)
Definition well_formed (s : Session) : Prop :=
  Forall (λ kv, kv.1 ∈ users s ∧ user kv.2 = kv.1) (choices s) ∧
  NoDup (PyDict.keys (choices s)).

(** The users recorded by the loop of [judge] for hand [h]. *)
Definition recorded (h : Hand) (vs : list Choice) : list string :=
  user <$> filter (λ c, hand c = h) vs.

(** The value [judge] computes, as a function of the three lists. *)
Definition verdict (rocks scissors papers : list string) : Result :=
  if truthy rocks && truthy scissors && truthy papers then mkResult Draw None
  else if truthy rocks && truthy scissors then mkResult RockWin (Some rocks)
  else if truthy scissors && truthy papers then mkResult ScissorsWin (Some scissors)
  else if truthy papers && truthy rocks then mkResult PaperWin (Some papers)
  else mkResult Draw None.

(** ** The key-value service

    The commands of the Redis server that [SessionStore] and
    [redis.lock.Lock] issue.  The server keeps a clock [now], in
    milliseconds, and every key written by the program carries a deadline;
    a key is absent for every command once the clock is past its deadline,
    and is still there when the clock is exactly on it.

    A stored value is either the pickle of a session or the token of a lock.
    [pickle.dumps] is the constructor [Pickled] (the pickle holds a snapshot
    of the object) and [pickle.loads] reads it back. *)
Module Redis.

Inductive value : Type :=
| Pickled (s : Session)
| Token (t : string).

Record entry : Type := mkEntry { val : value; deadline : Z }.

Record state : Type := mkState { now : Z; db : gmap string entry }.

(** The value under [name], when the key exists and the clock is not
    past its deadline. *)
Definition live (r : state) (name : string) : option value :=
  match db r !! name with
  | Some e => if (now r <=? deadline e)%Z then Some (val e) else None
  | None => None
  end.

Definition write (r : state) (name : string) (v : value) (ttl_ms : Z) : state :=
  {| now := now r; db := <[name := mkEntry v (now r + ttl_ms)]> (db r) |}.

(** GET name *)
Definition get (name : string) (r : state) : option value := live r name.

(** SET name value PX ttl NX: the reply tells whether the key was set. *)
Definition set_px_nx (name : string) (v : value) (ttl_ms : Z) (r : state)
  : bool * state :=
  match live r name with
  | Some _ => (false, r)
  | None => (true, write r name v ttl_ms)
  end.

(** SET name value EX seconds NX *)
Definition set_ex_nx (name : string) (v : value) (ex : Z) (r : state)
  : bool * state :=
  set_px_nx name v (1000 * ex) r.

(** SETEX name seconds value: always replies OK. *)
Definition setex (name : string) (time : Z) (v : value) (r : state)
  : bool * state :=
  (true, write r name v (1000 * time)).

(** DEL name *)
Definition del (name : string) (r : state) : state :=
  {| now := now r; db := delete name (db r) |}.

(** The passage of [dt] milliseconds. *)
Definition advance (dt : Z) (r : state) : state :=
  {| now := now r + dt; db := db r |}.

(** Truth value of a reply of GET: [bytes] are true unless empty. *)
Definition truthy (v : value) : bool :=
  match v with
  | Pickled _ => true
  | Token t => negb (String.eqb t "")
  end.

(** [pickle.loads] *)
Definition loads (v : value) : outcome Session :=
  match v with
  | Pickled s => Return s
  | Token _ => Raise UnpicklingError
  end.

(** [Lock.acquire] with [blocking_timeout=0]: one SET NX PX attempt. *)
Definition lock_acquire (name token : string) (timeout : Z) (r : state)
  : bool * state :=
  set_px_nx name (Token token) (1000 * timeout) r.

(** [Lock.release]: delete the key if it still holds our token. *)
Definition lock_release (name token : string) (r : state)
  : outcome unit * state :=
  match get name r with
  | Some (Token t) =>
      if String.eqb t token then (Return tt, del name r) else (Raise LockError, r)
  | _ => (Raise LockError, r)
  end.

End Redis.

(** ** SessionStore *)
Module SessionStore.

Definition session_lifetime : Z := 60 * 60.
Definition lock_timeout : Z := 60 * 5.

Definition op (A : Type) : Type := Redis.state -> outcome A * Redis.state.

(** [SessionStore.create]: the reply of SET is dropped. *)
Definition create (session : Session) : op unit :=
  λ r, let '(_, r') := Redis.set_ex_nx (session_id session) (Redis.Pickled session)
                                        session_lifetime r in
       (Return tt, r').

(** [SessionStore.store] *)
Definition store (session : Session) : op unit :=
  λ r, let '(ok, r') := Redis.setex (session_id session) session_lifetime
                                    (Redis.Pickled session) r in
       if ok then (Return tt, r') else (Raise SessionAlreadyExistError, r').

(** [SessionStore.restore] *)
Definition restore (session_id : string) : op Session :=
  λ r, match Redis.get session_id r with
       | Some v => if Redis.truthy v then (Redis.loads v, r)
                   else (Raise SessionNotFoundError, r)
       | None => (Raise SessionNotFoundError, r)
       end.

(** The key of the lock made by [SessionStore.lock]. *)
Definition lock_name (session_id : string) : string :=
  "SESSION_STORE_LOCK:" +:+ session_id.

End SessionStore.

(** ** Request handlers *)

(** [start]: [users_param] is the query parameter, [uuid] the identifier
    that [uuid.uuid4] would hand to a new session. *)
Definition start_users (users_param : string) : list string :=
  if PyStr.contains_char "," users_param then PyStr.split "," users_param
  else [users_param].

Definition start (users_param uuid : string) (r : Redis.state)
  : string * Redis.state :=
  let users := start_users users_param in
  if (length users <? 2)%nat then
    ("this game needs two or more users. request: `" +:+ users_param +:+ "`", r)
  else
    let session := Session_init uuid (UsersIterable users) in
    let '(_, r') := SessionStore.create session r in
    ("session start: " +:+ session_id session, r').

(** The body of the [with] block of [choice_hand]; it yields the session
    that the handler goes on to read after the block. *)
Definition choice_body (sid user hand : string) : SessionStore.op Session :=
  λ r, match SessionStore.restore sid r with
       | (Raise e, r1) => (Raise e, r1)
       | (Return session, r1) =>
           match from_str hand with
           | Raise e => (Raise e, r1)
           | Return h =>
               match choose user h session with
               | (Raise e, _) => (Raise e, r1)
               | (Return _, session') =>
                   match SessionStore.store session' r1 with
                   | (Raise e, r2) => (Raise e, r2)
                   | (Return _, r2) => (Return session', r2)
                   end
               end
           end
       end.

(** What [Lock.__enter__] of the lock library does when the lock cannot
    be acquired.  redis-py raises [LockError] there ([EntryRaises]).
    [EntryProceeds] is a lock library that goes on into the block without
    the lock, so that [Lock.__exit__] raises [LockError], the lock object
    having no token to release; that exception replaces whatever the
    block raised.  The results below hold for both. *)
Inductive lock_entry : Type := EntryRaises | EntryProceeds.

(** [choice_hand]: [token] is the token the lock object draws for itself.
    Entering the [with] block tries once to acquire the lock
    ([blocking_timeout=0]); leaving it releases the lock, whether the
    body returned or raised. *)
Definition choice_hand (lib : lock_entry) (sid user hand token : string)
  : SessionStore.op string :=
  λ r, let name := SessionStore.lock_name sid in
       match Redis.lock_acquire name token SessionStore.lock_timeout r with
       | (false, r0) =>
           match lib with
           | EntryRaises => (Raise LockError, r0)
           | EntryProceeds =>
               let '(_, r1) := choice_body sid user hand r0 in
               (Raise LockError, r1)
           end
       | (true, r0) =>
           let '(res, r1) := choice_body sid user hand r0 in
           match Redis.lock_release name token r1 with
           | (Raise e, r2) => (Raise e, r2)
           | (Return _, r2) =>
               match res with
               | Return session => (Return (session_id session), r2)
               | Raise e => (Raise e, r2)
               end
           end
       end.

(** [get]: the two fields put in the JSON reply. *)
Definition get (sid : string) : SessionStore.op (string * list string) :=
  λ r, match SessionStore.restore sid r with
       | (Return session, r') => (Return (session_id session, users session), r')
       | (Raise e, r') => (Raise e, r')
       end.

(** [session_result]: the result put in the JSON reply. *)
Definition session_result (sid : string) : SessionStore.op Result :=
  λ r, match SessionStore.restore sid r with
       | (Return session, r') => ((result session).1, r')
       | (Raise e, r') => (Raise e, r')
       end.

(** ** Scenarios

    Stores and sessions used to exercise the handlers. *)
Definition empty_store : Redis.state := Redis.mkState 0 ∅.

(** The store after [start] has created the session "u1" of A and B. *)
Definition started_store : Redis.state := (start "A,B" "u1" empty_store).2.

(** The same store while another submission for "u1" is inside its
    critical section, holding the lock under the token "t1". *)
Definition contended_store : Redis.state :=
  (Redis.lock_acquire (SessionStore.lock_name "u1") "t1"
                      SessionStore.lock_timeout started_store).2.

(** Three participants, two Rocks against one Scissors. *)
Definition rock_scissors_session : Session :=
  run [CallChoose "A" Rock; CallChoose "B" Scissors; CallChoose "C" Rock]
      (Session_init "u1" (UsersIterable ["A"; "B"; "C"])).

(** Two participants, of whom only A has chosen. *)
Definition open_session : Session :=
  run [CallChoose "A" Rock] (Session_init "u1" (UsersIterable ["A"; "B"])).

(** A participant list that names A twice; A tries to choose twice. *)
Definition duplicate_session : Session :=
  run [CallChoose "A" Rock; CallChoose "A" Paper; CallChoose "B" Scissors]
      (Session_init "u1" (UsersIterable ["A"; "A"; "B"])).

(** The session that [start] builds for the parameter "A,B". *)
Definition fresh_session : Session :=
  Session_init "u1" (UsersIterable ["A"; "B"]).

(** ** Sequences of requests

    The name under which a hand is written, a request to one of the
    handlers or the passage of time between two requests, and the store
    after a sequence of them has been served. *)
Definition Hand_name (h : Hand) : string :=
  match h with Rock => "rock" | Scissors => "scissors" | Paper => "paper" end.

Inductive request : Type :=
| ReqStart (users_param uuid : string)
| ReqChoice (sid user hand token : string)
| ReqGet (sid : string)
| ReqResult (sid : string)
| ReqWait (dt : Z).

Definition serve (lib : lock_entry) (q : request) (r : Redis.state) : Redis.state :=
  match q with
  | ReqStart users_param uuid => (start users_param uuid r).2
  | ReqChoice sid user hand token => (choice_hand lib sid user hand token r).2
  | ReqGet sid => (get sid r).2
  | ReqResult sid => (session_result sid r).2
  | ReqWait dt => Redis.advance dt r
  end.

Definition serve_all (lib : lock_entry) (qs : list request) (r : Redis.state)
  : Redis.state :=
  fold_left (λ r q, serve lib q r) qs r.

(** A submission: who, the text of the hand, the token of the lock. *)
Definition submission : Type := string * string * string.



(** The [choose] call that a submission amounts to when its hand parses. *)
Definition call_of (m : submission) : option call :=
  match from_str m.1.2 with
  | Return h => Some (CallChoose m.1.1 h)
  | Raise _ => None
  end.

(** Every pickled session of the store sits under its own identifier and
    is a session the program can hold. *)
Definition store_consistent (r : Redis.state) : Prop :=
  ∀ k e s, Redis.db r !! k = Some e → Redis.val e = Redis.Pickled s →
           session_id s = k ∧ reachable s.

(** Every participant has chosen. *)
Definition closed (s : Session) : Prop :=
  ∀ u, u ∈ users s → u ∈ PyDict.keys (choices s).

(** The store in which a submission that took the lock and failed, or
    succeeded with session [s'], ends. *)
Definition after_failure (sid token : string) (r : Redis.state) : Redis.state :=
  Redis.del (SessionStore.lock_name sid)
    (Redis.write r (SessionStore.lock_name sid) (Redis.Token token)
       (1000 * SessionStore.lock_timeout)).

Definition after_success (sid token : string) (s' : Session) (r : Redis.state)
  : Redis.state :=
  Redis.del (SessionStore.lock_name sid)
    (Redis.write
       (Redis.write r (SessionStore.lock_name sid) (Redis.Token token)
          (1000 * SessionStore.lock_timeout))
       sid (Redis.Pickled s') (1000 * SessionStore.session_lifetime)).



(** The session in which B chose before A. *)
Definition swapped_session : Session :=
  run [CallChoose "B" Scissors; CallChoose "A" Rock]
      (Session_init "u1" (UsersIterable ["A"; "B"])).

(** The session in which A chose before B. *)
Definition played_session : Session :=
  run [CallChoose "A" Rock; CallChoose "B" Scissors]
      (Session_init "u1" (UsersIterable ["A"; "B"])).

(** * Verification *)

Ltac in_list := repeat first [apply list_elem_of_here | apply list_elem_of_further].


(** ** Dictionaries *)
Section dict_facts.
Context {V : Type}.
Implicit Types (d : PyDict.dict V) (k : string) (v : V).

Lemma contains_spec k d : PyDict.contains k d = true ↔ k ∈ PyDict.keys d.
Proof. unfold PyDict.contains. rewrite bool_decide_eq_true. done. Qed.

Lemma contains_false k d : PyDict.contains k d = false ↔ k ∉ PyDict.keys d.
Proof. unfold PyDict.contains. rewrite bool_decide_eq_false. done. Qed.

(** Assigning to a key that is absent appends the entry. *)
Lemma setitem_fresh k v d :
  k ∉ PyDict.keys d → PyDict.setitem k v d = d ++ [(k, v)].
Proof.
  induction d as [|[k' v'] d IH]; intros Hk; simpl; [done|].
  unfold PyDict.keys in Hk. simpl in Hk.
  apply not_elem_of_cons in Hk as [Hne Hk].
  destruct (String.eqb_spec k' k) as [->|_]; [done|].
  by rewrite IH.
Qed.

Lemma keys_app d1 d2 : PyDict.keys (d1 ++ d2) = PyDict.keys d1 ++ PyDict.keys d2.
Proof. unfold PyDict.keys. by rewrite fmap_app. Qed.

Lemma values_app d1 d2 :
  PyDict.values (d1 ++ d2) = PyDict.values d1 ++ PyDict.values d2.
Proof. unfold PyDict.values. by rewrite fmap_app. Qed.

Lemma entries_app k d1 d2 :
  PyDict.entries k (d1 ++ d2) = PyDict.entries k d1 + PyDict.entries k d2.
Proof. unfold PyDict.entries. by rewrite filter_app, length_app. Qed.

Lemma entries_absent k d : k ∉ PyDict.keys d → PyDict.entries k d = 0.
Proof.
  unfold PyDict.entries, PyDict.keys.
  induction d as [|[k' v'] d IH]; simpl; intros Hk; [done|].
  apply not_elem_of_cons in Hk as [Hne Hk].
  rewrite filter_cons_False by (simpl; congruence). auto.
Qed.

(** A key of a dictionary without repeated keys has one entry. *)
Lemma entries_present k d :
  NoDup (PyDict.keys d) → k ∈ PyDict.keys d → PyDict.entries k d = 1.
Proof.
  induction d as [|[k' v'] d IH]; intros Hnd Hk.
  - by apply elem_of_nil in Hk.
  - unfold PyDict.keys in Hnd, Hk. simpl in Hnd, Hk.
    apply NoDup_cons in Hnd as [Hnotin Hnd].
    change (PyDict.entries k ((k', v') :: d))
      with (length (filter (λ kv : string * V, kv.1 = k) ((k', v') :: d))).
    destruct (decide (k' = k)) as [->|Hne].
    + rewrite filter_cons_True by done. simpl.
      f_equal. by apply entries_absent.
    + rewrite filter_cons_False by done.
      apply elem_of_cons in Hk as [?|Hk]; [congruence|].
      by apply IH.
Qed.
End dict_facts.

(** ** Session methods, unfolded *)

Lemma choose_eq (u : string) (h : Hand) (s : Session) :
  choose u h s =
    if bool_decide (u ∈ users s) && negb (PyDict.contains u (choices s)) then
      (Return tt,
       mkSession (session_id s) (users s)
                 (PyDict.setitem u (mkChoice u h) (choices s)))
    else if PyDict.contains u (choices s) then (Raise AlreadyChosenError, s)
    else (Raise NotInSessionError, s).
Proof.
  unfold choose, mbind, method_bind, bind, get_users, get_choices. simpl.
  destruct (bool_decide (u ∈ users s) && negb (PyDict.contains u (choices s)));
    [done|].
  by destruct (PyDict.contains u (choices s)).
Qed.

Lemma judge_loop (vs : list Choice) (rocks scissors papers : list string) :
  fold_left judge_step vs (rocks, scissors, papers) =
    (rocks ++ recorded Rock vs, scissors ++ recorded Scissors vs,
     papers ++ recorded Paper vs).
Proof.
  revert rocks scissors papers.
  induction vs as [|c vs IH]; intros rocks scissors papers; simpl.
  - unfold recorded. simpl. by rewrite !app_nil_r.
  - destruct c as [u []]; simpl; rewrite IH; unfold recorded;
      rewrite ?filter_cons_True, ?filter_cons_False by (simpl; congruence);
      simpl; by rewrite <- ?app_assoc.
Qed.

Lemma judge_eq (s : Session) :
  judge s =
    (Return (verdict (recorded Rock (PyDict.values (choices s)))
                     (recorded Scissors (PyDict.values (choices s)))
                     (recorded Paper (PyDict.values (choices s)))), s).
Proof.
  unfold judge, mbind, method_bind, bind, get_choices. simpl.
  rewrite judge_loop. simpl. unfold verdict, ret.
  repeat match goal with |- context [if ?b then _ else _] => destruct b end;
    reflexivity.
Qed.

Lemma result_eq (s : Session) :
  result s =
    if bool_decide (list_to_set (users s) =@{gset string}
                    list_to_set (PyDict.keys (choices s)))
    then judge s else (Raise SessionNotClosedError, s).
Proof.
  unfold result, mbind, method_bind, bind, get_users, get_choices. simpl.
  by destruct (bool_decide _).
Qed.

(** With the invariant, the user stored in a choice is its key. *)
Lemma recorded_throwers (h : Hand) (s : Session) :
  well_formed s → recorded h (PyDict.values (choices s)) = throwers h s.
Proof.
  intros [Hall _]. unfold recorded, throwers, PyDict.values, PyDict.keys.
  induction Hall as [|[k c] d [_ Hu] _ IH]; [done|]. simpl in Hu.
  rewrite fmap_cons. simpl in *. destruct (decide (hand c = h)) as [Hh|Hh].
  - rewrite !filter_cons_True by done. rewrite !fmap_cons. simpl.
    by rewrite IH, Hu.
  - by rewrite !filter_cons_False by done.
Qed.

(** ** The session invariant *)

Lemma init_well_formed (uuid : string) (arg : users_arg) :
  well_formed (Session_init uuid arg).
Proof. split; simpl; constructor. Qed.

Lemma judge_state (s : Session) : (judge s).2 = s.
Proof. by rewrite judge_eq. Qed.

Lemma result_state (s : Session) : (result s).2 = s.
Proof. rewrite result_eq. destruct (bool_decide _); [apply judge_state|done]. Qed.

(** Each call leaves [session_id] and [users] alone. *)
Lemma exec_frame (c : call) (s : Session) :
  session_id (exec c s) = session_id s ∧ users (exec c s) = users s.
Proof.
  destruct c as [u h| |]; simpl.
  - rewrite choose_eq.
    destruct (bool_decide _ && _); [done|]. by destruct (PyDict.contains _ _).
  - by rewrite result_state.
  - by rewrite judge_state.
Qed.

Lemma exec_well_formed (c : call) (s : Session) :
  well_formed s → well_formed (exec c s).
Proof.
  intros [Hall Hnd]. destruct c as [u h| |]; simpl.
  - rewrite choose_eq.
    destruct (bool_decide (u ∈ users s)) eqn:Hin; simpl;
      [|by destruct (PyDict.contains _ _)].
    destruct (PyDict.contains u (choices s)) eqn:Hc; simpl; [done|].
    apply bool_decide_eq_true in Hin. apply contains_false in Hc.
    rewrite setitem_fresh by done. split; simpl.
    + apply Forall_app. split; [done|]. by constructor.
    + rewrite keys_app. apply NoDup_app. split; [done|]. split.
      * intros k Hk Hk'. apply list_elem_of_singleton in Hk'. by subst.
      * apply NoDup_singleton.
  - by rewrite result_state.
  - by rewrite judge_state.
Qed.

Lemma run_snoc (cs : list call) (c : call) (s : Session) :
  run (cs ++ [c]) s = exec c (run cs s).
Proof. unfold run. by rewrite fold_left_app. Qed.

Lemma run_frame (cs : list call) (s : Session) :
  session_id (run cs s) = session_id s ∧ users (run cs s) = users s.
Proof.
  induction cs as [|c cs IH] using rev_ind; [done|].
  rewrite run_snoc. destruct (exec_frame c (run cs s)) as [-> ->]. done.
Qed.

Lemma run_well_formed (cs : list call) (s : Session) :
  well_formed s → well_formed (run cs s).
Proof.
  intros Hs. induction cs as [|c cs IH] using rev_ind; [done|].
  rewrite run_snoc. by apply exec_well_formed.
Qed.

Lemma reachable_well_formed (s : Session) : reachable s → well_formed s.
Proof.
  intros (uuid & arg & cs & ->). apply run_well_formed, init_well_formed.
Qed.

Lemma reachable_exec (c : call) (s : Session) : reachable s → reachable (exec c s).
Proof.
  intros (uuid & arg & cs & ->). exists uuid, arg, (cs ++ [c]).
  by rewrite run_snoc.
Qed.

Lemma well_formed_keys (s : Session) (k : string) :
  well_formed s → k ∈ PyDict.keys (choices s) → k ∈ users s.
Proof.
  intros [Hall _] Hk. unfold PyDict.keys in Hk.
  apply list_elem_of_fmap in Hk as ([k' c] & -> & Hkc).
  rewrite Forall_forall in Hall. by destruct (Hall _ Hkc).
Qed.

Lemma well_formed_entries (s : Session) (k : string) :
  well_formed s → PyDict.entries k (choices s) ≤ 1.
Proof.
  intros [_ Hnd]. destruct (decide (k ∈ PyDict.keys (choices s))) as [Hk|Hk].
  - by rewrite entries_present.
  - rewrite entries_absent by done. lia.
Qed.

(** C9. Whatever sequence of [choose], [result] and [judge] calls is made
    on a freshly constructed session, failing calls included: every key of
    [choices] is one of [users], no key occurs twice (so no participant
    has more than one choice), and [session_id] is still the identifier
    given at construction; [users] is unchanged as well. *)
Theorem session_invariants (uuid : string) (arg : users_arg) (cs : list call) :
  let s := run cs (Session_init uuid arg) in
  (∀ k, k ∈ PyDict.keys (choices s) → k ∈ users s) ∧
  NoDup (PyDict.keys (choices s)) ∧
  (∀ k, PyDict.entries k (choices s) ≤ 1) ∧
  session_id s = uuid ∧
  users s = users (Session_init uuid arg).
Proof.
  intros s.
  assert (Hwf : well_formed s) by apply run_well_formed, init_well_formed.
  destruct (run_frame cs (Session_init uuid arg)) as [Hid Hus].
  split; [intros k; by apply well_formed_keys|].
  split; [apply Hwf|].
  split; [intros k; by apply well_formed_entries|].
  done.
Qed.

(** ** Judgment *)

Lemma truthy_true {A} (l : list A) : truthy l = true ↔ l ≠ [].
Proof. by destruct l. Qed.

Lemma truthy_false {A} (l : list A) : truthy l = false ↔ l = [].
Proof. by destruct l. Qed.

(** C1. On every session the program can hold, [judge] returns without
    touching the session, and its result follows the table: all three
    groups non-empty give Draw without winners; only Rock and Scissors
    give RockWin with the Rock throwers as winners; only Scissors and
    Paper give ScissorsWin with the Scissors throwers; only Paper and Rock
    give PaperWin with the Paper throwers; at most one non-empty group
    gives Draw without winners.  The groups are the participants filed
    under each hand in [choices]. *)
Theorem judge_table (s : Session) :
  reachable s →
  let rocks := throwers Rock s in
  let scissors := throwers Scissors s in
  let papers := throwers Paper s in
  (judge s).2 = s ∧
  (rocks ≠ [] → scissors ≠ [] → papers ≠ [] →
     (judge s).1 = Return (mkResult Draw None)) ∧
  (rocks ≠ [] → scissors ≠ [] → papers = [] →
     (judge s).1 = Return (mkResult RockWin (Some rocks))) ∧
  (rocks = [] → scissors ≠ [] → papers ≠ [] →
     (judge s).1 = Return (mkResult ScissorsWin (Some scissors))) ∧
  (rocks ≠ [] → scissors = [] → papers ≠ [] →
     (judge s).1 = Return (mkResult PaperWin (Some papers))) ∧
  ((rocks = [] ∧ scissors = []) ∨ (scissors = [] ∧ papers = []) ∨
   (papers = [] ∧ rocks = []) →
     (judge s).1 = Return (mkResult Draw None)).
Proof.
  intros Hs rocks scissors papers.
  apply reachable_well_formed in Hs.
  rewrite judge_eq, !recorded_throwers by done. simpl.
  fold rocks scissors papers. unfold verdict.
  split; [done|].
  repeat split.
  - intros Hr Hc Hp.
    apply truthy_true in Hr, Hc, Hp. by rewrite Hr, Hc, Hp.
  - intros Hr Hc Hp.
    apply truthy_true in Hr, Hc. rewrite Hr, Hc, Hp. done.
  - intros Hr Hc Hp.
    apply truthy_true in Hc, Hp. rewrite Hr, Hc, Hp. done.
  - intros Hr Hc Hp.
    apply truthy_true in Hr, Hp. rewrite Hr, Hc, Hp. done.
  - intros [[-> ->]|[[-> ->]|[-> ->]]]; simpl;
      [by destruct (truthy papers)|by destruct (truthy rocks)|
       by destruct (truthy scissors)].
Qed.

(** ** Sets of participants *)

Lemma list_to_set_remove_dups (l : list string) :
  list_to_set (remove_dups l) =@{gset string} list_to_set l.
Proof.
  apply set_eq. intros x. by rewrite !elem_of_list_to_set, elem_of_remove_dups.
Qed.

Lemma remove_dups_submseteq (l : list string) : remove_dups l ⊆+ l.
Proof.
  apply NoDup_submseteq; [apply NoDup_remove_dups|].
  intros x. by rewrite elem_of_remove_dups.
Qed.

(** A set built from a list has at most as many elements as the list. *)
Lemma size_list_to_set_le (l : list string) :
  size (list_to_set l : gset string) ≤ length l.
Proof.
  rewrite <- list_to_set_remove_dups, size_list_to_set by apply NoDup_remove_dups.
  apply submseteq_length, remove_dups_submseteq.
Qed.

(** It has fewer when the list repeats an element. *)
Lemma size_list_to_set_lt (l : list string) :
  ¬ NoDup l → size (list_to_set l : gset string) < length l.
Proof.
  intros Hdup.
  destruct (decide (length l ≤ size (list_to_set l : gset string))) as [Hle|]; [|lia].
  exfalso. apply Hdup.
  rewrite <- list_to_set_remove_dups, size_list_to_set in Hle
    by apply NoDup_remove_dups.
  pose proof (submseteq_length_Permutation _ _ (remove_dups_submseteq l) Hle) as Hp.
  rewrite <- Hp. apply NoDup_remove_dups.
Qed.

(** In a well-formed session the two sets that [result] compares are equal
    exactly when every participant has chosen. *)
Lemma closed_iff (s : Session) :
  well_formed s →
  list_to_set (users s) =@{gset string} list_to_set (PyDict.keys (choices s)) ↔
  ∀ u, u ∈ users s → u ∈ PyDict.keys (choices s).
Proof.
  intros Hwf. split.
  - intros Heq u Hu. apply (elem_of_list_to_set (C:=gset string)).
    rewrite <- Heq. by apply elem_of_list_to_set.
  - intros Hall. apply set_eq. intros u. rewrite !elem_of_list_to_set.
    split; [apply Hall|by apply well_formed_keys].
Qed.

Lemma well_formed_size (s : Session) :
  well_formed s →
  size (list_to_set (PyDict.keys (choices s)) : gset string) = length (choices s).
Proof.
  intros [_ Hnd]. rewrite size_list_to_set by done.
  unfold PyDict.keys. by rewrite length_fmap.
Qed.

(** ** Choosing *)

(** C2. On every session the program can hold: [choose] by a participant
    without a choice appends exactly one entry, the participant's choice,
    and changes nothing else; by somebody who has a choice it raises
    [AlreadyChosenError]; by somebody outside the participant list it
    raises [NotInSessionError]; both failures leave the session as it was.
    A second [choose] by a participant raises [AlreadyChosenError], with
    exactly one entry for that participant in [choices]. *)
Theorem choose_cases (s : Session) (u : string) (h : Hand) :
  reachable s →
  (u ∈ users s → u ∉ PyDict.keys (choices s) →
     choose u h s =
       (Return tt,
        mkSession (session_id s) (users s) (choices s ++ [(u, mkChoice u h)]))) ∧
  (u ∈ PyDict.keys (choices s) → choose u h s = (Raise AlreadyChosenError, s)) ∧
  (u ∉ users s → choose u h s = (Raise NotInSessionError, s)) ∧
  (u ∈ users s → ∀ h',
     let s1 := (choose u h s).2 in
     choose u h' s1 = (Raise AlreadyChosenError, s1) ∧
     PyDict.entries u (choices s1) = 1).
Proof.
  intros Hs. pose proof (reachable_well_formed s Hs) as Hwf.
  assert (Hfresh : u ∈ users s → u ∉ PyDict.keys (choices s) →
     choose u h s =
       (Return tt,
        mkSession (session_id s) (users s) (choices s ++ [(u, mkChoice u h)]))).
  { intros Hu Hk. rewrite choose_eq.
    rewrite (bool_decide_eq_true_2 _ Hu).
    apply contains_false in Hk. rewrite Hk. simpl.
    apply contains_false in Hk. by rewrite setitem_fresh. }
  assert (Hagain : ∀ (t : Session) (g : Hand),
     u ∈ PyDict.keys (choices t) → choose u g t = (Raise AlreadyChosenError, t)).
  { intros t g Hk. rewrite choose_eq.
    apply contains_spec in Hk. rewrite Hk.
    by rewrite andb_false_r. }
  split; [exact Hfresh|]. split; [apply Hagain|]. split.
  - intros Hu. rewrite choose_eq.
    rewrite (bool_decide_eq_false_2 _ Hu). simpl.
    destruct (PyDict.contains u (choices s)) eqn:Hc; [|done].
    apply contains_spec in Hc. destruct Hu. by apply well_formed_keys.
  - intros Hu h' s1.
    assert (Hs1 : reachable s1) by apply (reachable_exec (CallChoose u h)), Hs.
    apply reachable_well_formed in Hs1 as Hwf1.
    assert (Hk1 : u ∈ PyDict.keys (choices s1)).
    { subst s1. destruct (decide (u ∈ PyDict.keys (choices s))) as [Hk|Hk].
      - by rewrite Hagain.
      - rewrite Hfresh by done. simpl. rewrite keys_app.
        apply elem_of_app. right. apply list_elem_of_singleton. done. }
    split; [by apply Hagain|].
    apply entries_present; [apply Hwf1|done].
Qed.

(** ** Reading the result *)

(** C3. On every session the program can hold, [result] returns what
    [judge] returns exactly when the set of participants equals the set of
    those who have chosen, that is when every participant has chosen;
    otherwise it raises [SessionNotClosedError], in particular whenever
    fewer participants have chosen than there are distinct participants.
    In both cases the session is left as it was, so a repeated call gives
    the same answer. *)
Theorem result_cases (s : Session) :
  reachable s →
  let closed :=
    list_to_set (users s) =@{gset string} list_to_set (PyDict.keys (choices s)) in
  (closed → result s = judge s) ∧
  (¬ closed → result s = (Raise SessionNotClosedError, s)) ∧
  ((result s).1 = (judge s).1 ↔ closed) ∧
  (closed ↔ ∀ u, u ∈ users s → u ∈ PyDict.keys (choices s)) ∧
  (length (choices s) < size (list_to_set (users s) : gset string) →
     result s = (Raise SessionNotClosedError, s)) ∧
  (result s).2 = s ∧
  result (result s).2 = result s.
Proof.
  intros Hs closed. pose proof (reachable_well_formed s Hs) as Hwf.
  assert (Hyes : closed → result s = judge s).
  { intros Hc. rewrite result_eq. by rewrite (bool_decide_eq_true_2 _ Hc). }
  assert (Hno : ¬ closed → result s = (Raise SessionNotClosedError, s)).
  { intros Hc. rewrite result_eq. by rewrite (bool_decide_eq_false_2 _ Hc). }
  split; [done|]. split; [done|]. split; [|split; [|split; [|split]]].
  - split; [|intros Hc; by rewrite Hyes].
    intros Heq. destruct (decide closed) as [|Hc]; [done|].
    rewrite Hno, judge_eq in Heq by done. discriminate.
  - by apply closed_iff.
  - intros Hlt. apply Hno. intros Hc. unfold closed in Hc.
    rewrite Hc, well_formed_size in Hlt by done. lia.
  - apply result_state.
  - by rewrite result_state.
Qed.

(** C10. A session whose participant list repeats an identifier is closed
    once each distinct identifier has chosen: [result] then returns the
    judgment although [choices] has fewer entries than the list, and any
    further [choose] by a participant, the repeated one included, raises
    [AlreadyChosenError]. *)
Theorem duplicate_participants_close_early (s : Session) :
  reachable s →
  ¬ NoDup (users s) →
  (∀ u, u ∈ users s → u ∈ PyDict.keys (choices s)) →
  result s = judge s ∧
  (∃ r, (result s).1 = Return r) ∧
  length (choices s) = size (list_to_set (users s) : gset string) ∧
  length (choices s) < length (users s) ∧
  (∀ u h, u ∈ users s → choose u h s = (Raise AlreadyChosenError, s)).
Proof.
  intros Hs Hdup Hall. pose proof (reachable_well_formed s Hs) as Hwf.
  pose proof (proj2 (closed_iff s Hwf) Hall) as Hc.
  assert (Hres : result s = judge s).
  { rewrite result_eq. by rewrite (bool_decide_eq_true_2 _ Hc). }
  assert (Hlen : length (choices s) = size (list_to_set (users s) : gset string)).
  { by rewrite Hc, well_formed_size. }
  split; [done|]. split; [rewrite Hres, judge_eq; eauto|].
  split; [done|]. split.
  - rewrite Hlen. by apply size_list_to_set_lt.
  - intros u h Hu. rewrite choose_eq.
    assert (Hk : PyDict.contains u (choices s) = true)
      by (apply contains_spec; auto).
    by rewrite Hk, andb_false_r.
Qed.

(** ** Parsing a hand *)
Section str_facts.
Import PyStr.

Ltac each_char c := destruct c as [[] [] [] [] [] [] [] []]; vm_compute; congruence.

Lemma is_space_lower_char c : is_space (lower_char c) = is_space c.
Proof. each_char c. Qed.

Lemma lower_char_space c : is_space c = true → lower_char c = c.
Proof. each_char c. Qed.

Lemma lower_app a b : lower (a +:+ b) = lower a +:+ lower b.
Proof. induction a as [|c a IH]; simpl; [done|]. by rewrite IH. Qed.

Lemma lower_all_space p : all_space p = true → lower p = p.
Proof.
  induction p as [|c p IH]; simpl; [done|].
  intros [Hc Hp]%andb_true_iff. by rewrite IH, lower_char_space.
Qed.

Lemma lower_same_letters a b : same_letters a b → lower a = lower b.
Proof. induction 1 as [|c1 c2 s1 s2 Hc _ IH]; simpl; [done|]. by rewrite Hc, IH. Qed.

Lemma lstrip_all_space p s : all_space p = true → lstrip (p +:+ s) = lstrip s.
Proof.
  induction p as [|c p IH]; simpl; [done|].
  intros [Hc Hp]%andb_true_iff. rewrite Hc. auto.
Qed.

Lemma lstrip_only_space q : all_space q = true → lstrip q = EmptyString.
Proof.
  induction q as [|c q IH]; simpl; [done|].
  intros [Hc Hq]%andb_true_iff. rewrite Hc. auto.
Qed.

Lemma rstrip_only_space q : all_space q = true → rstrip q = EmptyString.
Proof.
  induction q as [|c q IH]; simpl; [done|].
  intros [Hc Hq]%andb_true_iff. by rewrite IH, Hc.
Qed.

Lemma rstrip_all_space s q : all_space q = true → rstrip (s +:+ q) = rstrip s.
Proof.
  intros Hq. induction s as [|c s IH]; simpl.
  - by apply rstrip_only_space.
  - by rewrite IH.
Qed.

Lemma strip_all_space p s q :
  all_space p = true → all_space q = true → strip (p +:+ s +:+ q) = strip s.
Proof.
  intros Hp Hq. unfold strip. rewrite lstrip_all_space by done.
  induction s as [|c s IH]; simpl.
  - by rewrite lstrip_only_space.
  - destruct (is_space c); [done|].
    by rewrite <- (rstrip_all_space (String c s) q Hq).
Qed.

Lemma lower_lstrip s : lower (lstrip s) = lstrip (lower s).
Proof.
  induction s as [|c s IH]; simpl; [done|].
  rewrite is_space_lower_char. by destruct (is_space c).
Qed.

Lemma lower_rstrip s : lower (rstrip s) = rstrip (lower s).
Proof.
  induction s as [|c s IH]; simpl; [done|].
  rewrite <- IH, is_space_lower_char.
  destruct (rstrip s); simpl; [by destruct (is_space c)|done].
Qed.

(** Trimming and lower-casing commute, so the trimmed lower-case form of
    a text is what [from_str] compares with the three names. *)
Lemma lower_strip s : lower (strip s) = strip (lower s).
Proof. unfold strip. by rewrite lower_rstrip, lower_lstrip. Qed.

Lemma differ_case_ws_normal a b :
  differ_case_ws a b → strip (lower a) = strip (lower b).
Proof.
  intros (pa & ca & qa & pb & cb & qb & -> & -> & Hpa & Hqa & Hpb & Hqb & Hc).
  rewrite !lower_app, !(lower_all_space pa), !(lower_all_space qa),
    !(lower_all_space pb), !(lower_all_space qb) by done.
  rewrite !strip_all_space by done. by rewrite (lower_same_letters _ _ Hc).
Qed.
End str_facts.

Lemma from_str_eq (a : string) :
  from_str a =
    match hand_of_name (PyStr.lower (PyStr.strip a)) with
    | Some h => Return h
    | None => Raise UndefinedEnumError
    end.
Proof.
  unfold from_str, hand_of_name. rewrite lower_strip.
  generalize (PyStr.strip (PyStr.lower a)). intros w.
  destruct (decide (w = "rock")) as [->|H1]; [done|].
  destruct (decide (w = "scissors")) as [->|H2]; [done|].
  destruct (decide (w = "paper")) as [->|H3]; [done|].
  apply String.eqb_neq in H1, H2, H3. by rewrite H1, H2, H3.
Qed.

(** C6. Two texts that differ only in letter case and surrounding white
    space parse alike; when their trimmed lower-case form is one of
    "rock", "scissors", "paper" both parse to that hand, and a text whose
    trimmed lower-case form is none of the three raises
    [UndefinedEnumError].  Texts range over the code points below 256. *)
Theorem from_str_case_ws (a b : string) :
  PyStr.differ_case_ws a b →
  from_str a = from_str b ∧
  (∀ h, hand_of_name (PyStr.lower (PyStr.strip a)) = Some h →
        from_str a = Return h ∧ from_str b = Return h) ∧
  (hand_of_name (PyStr.lower (PyStr.strip a)) = None →
        from_str a = Raise UndefinedEnumError ∧
        from_str b = Raise UndefinedEnumError).
Proof.
  intros Hab.
  assert (Heq : from_str a = from_str b).
  { unfold from_str. by rewrite (differ_case_ws_normal a b Hab). }
  split; [done|]. rewrite <- Heq, from_str_eq.
  split; [intros h ->; done|intros ->; done].
Qed.

(** ** The store *)
Section redis_facts.
Import Redis.

Lemma live_write_eq r name v ttl :
  (0 < ttl)%Z → live (write r name v ttl) name = Some v.
Proof.
  intros Httl. unfold live, write. simpl. rewrite lookup_insert_eq. simpl.
  destruct (Z.leb_spec (now r) (now r + ttl)); [done|lia].
Qed.

Lemma live_write_ne r name name' v ttl :
  name ≠ name' → live (write r name v ttl) name' = live r name'.
Proof. intros Hne. unfold live, write. simpl. by rewrite lookup_insert_ne. Qed.

Lemma live_advance_write r name v ttl dt :
  live (advance dt (write r name v ttl)) name =
    if (dt <=? ttl)%Z then Some v else None.
Proof.
  unfold live, advance, write. simpl. rewrite lookup_insert_eq. simpl.
  destruct (Z.leb_spec (now r + dt) (now r + ttl)), (Z.leb_spec dt ttl);
    (done || lia).
Qed.

Lemma live_never_set r name : db r !! name = None → live r name = None.
Proof. unfold live. by intros ->. Qed.

Lemma live_expired r name e :
  db r !! name = Some e → (deadline e < now r)%Z → live r name = None.
Proof.
  unfold live. intros -> Hd. destruct (Z.leb_spec (now r) (deadline e)); [lia|done].
Qed.
End redis_facts.

Lemma create_eq (session : Session) (r : Redis.state) :
  SessionStore.create session r =
    (Return tt,
     match Redis.live r (session_id session) with
     | Some _ => r
     | None => Redis.write r (session_id session) (Redis.Pickled session) 3600000
     end).
Proof.
  unfold SessionStore.create, Redis.set_ex_nx, Redis.set_px_nx.
  by destruct (Redis.live r (session_id session)).
Qed.

Lemma restore_eq (sid : string) (r : Redis.state) :
  SessionStore.restore sid r =
    match Redis.live r sid with
    | Some (Redis.Pickled s) => (Return s, r)
    | Some (Redis.Token t) =>
        if String.eqb t "" then (Raise SessionNotFoundError, r)
        else (Raise UnpicklingError, r)
    | None => (Raise SessionNotFoundError, r)
    end.
Proof.
  unfold SessionStore.restore, Redis.get.
  destruct (Redis.live r sid) as [[s|t]|]; simpl; [done| |done].
  by destruct (String.eqb t "").
Qed.

(** C4. [create] writes the pickled session under its id, with a deadline
    one hour ahead, when no live record has that id; when a live record
    has it, [create] returns without raising and leaves the whole store,
    that record included, as it was.  So a second [create] under the same
    id changes nothing, and other keys are never affected.  The record
    written can be restored up to and including the instant one hour
    later, and no longer once the clock is past it. *)
Theorem create_set_if_absent (session : Session) (r : Redis.state) :
  let name := session_id session in
  (Redis.live r name = None →
     SessionStore.create session r =
       (Return tt, Redis.write r name (Redis.Pickled session) (1000 * 3600)) ∧
     Redis.db (SessionStore.create session r).2 !! name =
       Some (Redis.mkEntry (Redis.Pickled session) (Redis.now r + 1000 * 3600)) ∧
     ∀ dt, SessionStore.restore name
             (Redis.advance dt (SessionStore.create session r).2) =
           (if (dt <=? 1000 * 3600)%Z then Return session
            else Raise SessionNotFoundError,
            Redis.advance dt (SessionStore.create session r).2)) ∧
  (∀ v, Redis.live r name = Some v →
     SessionStore.create session r = (Return tt, r)) ∧
  (∀ other, session_id other = name →
     let r1 := (SessionStore.create session r).2 in
     SessionStore.create other r1 = (Return tt, r1)) ∧
  (∀ k, k ≠ name →
     Redis.live (SessionStore.create session r).2 k = Redis.live r k).
Proof.
  intros name. split; [|split; [|split]].
  - intros Habs. rewrite create_eq. fold name. rewrite Habs.
    split; [done|]. split.
    + simpl. by rewrite lookup_insert_eq.
    + intros dt. simpl. rewrite restore_eq, live_advance_write.
      by destruct (dt <=? _)%Z.
  - intros v Hv. rewrite create_eq. fold name. by rewrite Hv.
  - intros other Hid r1. subst r1. rewrite (create_eq other), Hid.
    rewrite create_eq. fold name.
    destruct (Redis.live r name) as [v|] eqn:Hl; simpl.
    + by rewrite Hl.
    + by rewrite live_write_eq.
  - intros k Hk. rewrite create_eq. fold name.
    destruct (Redis.live r name); [done|]. by apply live_write_ne.
Qed.

(** C8. [restore] returns the session whose pickle is the live record
    under the given key; it raises [SessionNotFoundError] when the key has
    no live record, because it was never written or because the clock is
    past its deadline.  It never changes the store: after a successful call the
    record is still there and restores to the same session again. *)
Theorem restore_cases (sid : string) (r : Redis.state) :
  (∀ s, Redis.live r sid = Some (Redis.Pickled s) →
     SessionStore.restore sid r = (Return s, r)) ∧
  (Redis.live r sid = None →
     SessionStore.restore sid r = (Raise SessionNotFoundError, r)) ∧
  (Redis.db r !! sid = None →
     SessionStore.restore sid r = (Raise SessionNotFoundError, r)) ∧
  (∀ e, Redis.db r !! sid = Some e → (Redis.deadline e < Redis.now r)%Z →
     SessionStore.restore sid r = (Raise SessionNotFoundError, r)) ∧
  (SessionStore.restore sid r).2 = r ∧
  (∀ s r', SessionStore.restore sid r = (Return s, r') →
     Redis.live r sid = Some (Redis.Pickled s) ∧
     SessionStore.restore sid r' = (Return s, r)).
Proof.
  assert (Hnone : Redis.live r sid = None →
     SessionStore.restore sid r = (Raise SessionNotFoundError, r)).
  { intros Hl. by rewrite restore_eq, Hl. }
  split; [|split; [done|split; [|split; [|split]]]].
  - intros s Hl. by rewrite restore_eq, Hl.
  - intros Hdb. by apply Hnone, live_never_set.
  - intros e Hdb Hd. by eapply Hnone, live_expired.
  - rewrite restore_eq.
    destruct (Redis.live r sid) as [[s|t]|]; [done| |done].
    by destruct (String.eqb t "").
  - intros s r' Hr. rewrite restore_eq in Hr.
    destruct (Redis.live r sid) as [[s'|t]|] eqn:Hl;
      [|by destruct (String.eqb t "")|done].
    injection Hr as -> ->. split; [done|].
    by rewrite restore_eq, Hl.
Qed.

(** ** Starting a session *)

Lemma split_aux_length (sep : ascii) (cur s : string) :
  length (PyStr.split_aux sep cur s) = S (PyStr.count_char sep s).
Proof.
  revert cur. induction s as [|c s IH]; intros cur; simpl; [done|].
  destruct (Ascii.eqb c sep); simpl; by rewrite IH.
Qed.

Lemma contains_char_count (sep : ascii) (s : string) :
  PyStr.contains_char sep s = true ↔ 0 < PyStr.count_char sep s.
Proof.
  induction s as [|c s IH]; simpl; [split; [done|lia]|].
  destruct (Ascii.eqb c sep); simpl; [split; [lia|done]|done].
Qed.

(** The number of participants that [start] reads from the parameter: one
    more than the number of commas. *)
Lemma start_users_length (users_param : string) :
  length (start_users users_param) = S (PyStr.count_char "," users_param).
Proof.
  unfold start_users, PyStr.split.
  destruct (PyStr.contains_char "," users_param) eqn:Hc.
  - apply split_aux_length.
  - simpl. f_equal.
    destruct (PyStr.count_char "," users_param) eqn:Hn; [done|].
    assert (PyStr.contains_char "," users_param = true); [|congruence].
    apply contains_char_count. lia.
Qed.

(** C7. With fewer than two participants [start] answers with the
    refusal message and leaves the store untouched, so no session is
    created; with two or more it constructs the session of these
    participants, passes it to [create] and answers with its identifier.
    When the identifier is free the session can then be restored. *)
Theorem start_min_two (users_param uuid : string) (r : Redis.state) :
  let us := start_users users_param in
  let session := Session_init uuid (UsersIterable us) in
  (length us < 2 →
     start users_param uuid r =
       ("this game needs two or more users. request: `" +:+ users_param +:+ "`", r)) ∧
  (2 ≤ length us →
     start users_param uuid r =
       ("session start: " +:+ uuid, (SessionStore.create session r).2) ∧
     session = mkSession uuid us [] ∧
     (Redis.live r uuid = None →
        SessionStore.restore uuid (start users_param uuid r).2 =
          (Return session, (start users_param uuid r).2))) ∧
  (length us < 2 ↔ PyStr.contains_char "," users_param = false).
Proof.
  intros us session. split; [|split].
  - intros Hlt. unfold start. fold us.
    by destruct (Nat.ltb_spec (length us) 2); [|lia].
  - intros Hge.
    assert (Hst : start users_param uuid r =
       ("session start: " +:+ uuid, (SessionStore.create session r).2)).
    { unfold start. fold us.
      destruct (Nat.ltb_spec (length us) 2); [lia|].
      fold session. by destruct (SessionStore.create session r). }
    split; [done|]. split; [done|].
    intros Hfree. rewrite Hst. simpl.
    rewrite create_eq. simpl. rewrite Hfree.
    rewrite restore_eq. by rewrite live_write_eq.
  - subst us. rewrite start_users_length.
    destruct (PyStr.contains_char "," users_param) eqn:Hc.
    + apply contains_char_count in Hc. split; [lia|done].
    + split; [done|]. intros _.
      destruct (PyStr.count_char "," users_param) eqn:Hn; [lia|].
      assert (PyStr.contains_char "," users_param = true); [|congruence].
      apply contains_char_count. lia.
Qed.

(** ** Submitting a choice *)

Lemma lock_release_errors (name token : string) (r r' : Redis.state) (e : Error) :
  Redis.lock_release name token r = (Raise e, r') → e = LockError.
Proof.
  unfold Redis.lock_release.
  destruct (Redis.get name r) as [[s|t]|]; try congruence.
  destruct (String.eqb t token); congruence.
Qed.

Lemma choice_body_errors (sid u h : string) (r r' : Redis.state) (e : Error) :
  choice_body sid u h r = (Raise e, r') →
  e ∈ [SessionNotFoundError; UnpicklingError; UndefinedEnumError;
       AlreadyChosenError; NotInSessionError].
Proof.
  unfold choice_body. rewrite restore_eq.
  destruct (Redis.live r sid) as [[s|t]|].
  - rewrite from_str_eq.
    destruct (hand_of_name _) as [g|]; [|intros [= <- _]; in_list].
    rewrite choose_eq.
    destruct (bool_decide _ && _); [simpl; congruence|].
    destruct (PyDict.contains u (choices s)); intros [= <- _]; in_list.
  - destruct (String.eqb t ""); intros [= <- _]; in_list.
  - intros [= <- _]; in_list.
Qed.

(** While the lock of a session is held, a submission for that session
    ends with the library's [LockError], whichever release of the library
    is in use. *)
Lemma choice_hand_lock_held (lib : lock_entry) (sid u h token : string)
    (r : Redis.state) :
  is_Some (Redis.live r (SessionStore.lock_name sid)) →
  (choice_hand lib sid u h token r).1 = Raise LockError.
Proof.
  intros [v Hv]. unfold choice_hand, Redis.lock_acquire, Redis.set_px_nx.
  rewrite Hv. destruct lib; [done|].
  by destruct (choice_body sid u h r).
Qed.

(** When the library raises on entry, the store is left as it was. *)
Lemma choice_hand_lock_held_store (sid u h token : string) (r : Redis.state) :
  is_Some (Redis.live r (SessionStore.lock_name sid)) →
  choice_hand EntryRaises sid u h token r = (Raise LockError, r).
Proof.
  intros [v Hv]. unfold choice_hand, Redis.lock_acquire, Redis.set_px_nx.
  by rewrite Hv.
Qed.

(** The exceptions that can leave [choice_hand]. *)
Lemma choice_hand_errors (lib : lock_entry) (sid u h token : string)
    (r r' : Redis.state) (e : Error) :
  choice_hand lib sid u h token r = (Raise e, r') →
  e ∈ [LockError; SessionNotFoundError; UnpicklingError; UndefinedEnumError;
       AlreadyChosenError; NotInSessionError].
Proof.
  unfold choice_hand.
  destruct (Redis.lock_acquire _ _ _ r) as [[] r0].
  - destruct (choice_body sid u h r0) as [res r1] eqn:Hb.
    destruct (Redis.lock_release _ _ r1) as [[[]|e'] r2] eqn:Hrel.
    + destruct res as [s|e']; [congruence|]. intros [= <- _].
      apply choice_body_errors in Hb. by apply list_elem_of_further.
    + intros [= <- _]. apply lock_release_errors in Hrel. subst. in_list.
  - destruct lib; [intros [= <- _]; in_list|].
    destruct (choice_body sid u h r0). intros [= <- _]; in_list.
Qed.

(** [CannotStartTransactionError] is declared, and has a handler, but
    no run of [choice_hand] raises it. *)
Lemma choice_hand_never_cannot_start (lib : lock_entry) (sid u h token : string)
    (r : Redis.state) :
  (choice_hand lib sid u h token r).1 ≠ Raise CannotStartTransactionError.
Proof.
  destruct (choice_hand lib sid u h token r) as [[s|e] r'] eqn:Hc; simpl; [done|].
  apply choice_hand_errors in Hc. intros [= ->].
  repeat (apply elem_of_cons in Hc as [Hc|Hc]; [discriminate|]).
  by apply elem_of_nil in Hc.
Qed.

(** C5 (the program departs from the claim). B submits a hand for the
    session "u1" while another submission holds its lock.  Whichever
    release of the lock library is in use, the handler ends with
    [LockError], raised by the library: it is none of the exceptions that
    the application declares and handles, and it is not
    [CannotStartTransactionError].  With a library that raises on entry
    the store is left as it was.  Without contention the same submission
    returns the session id. *)
Theorem choice_hand_contended_raises_LockError :
  (∀ lib, (choice_hand lib "u1" "B" "paper" "t2" contended_store).1 =
            Raise LockError) ∧
  choice_hand EntryRaises "u1" "B" "paper" "t2" contended_store =
    (Raise LockError, contended_store) ∧
  is_base_error LockError = false ∧
  is_base_error CannotStartTransactionError = true ∧
  (∀ lib, (choice_hand lib "u1" "B" "paper" "t2" contended_store).1 ≠
            Raise CannotStartTransactionError) ∧
  (∀ lib, (choice_hand lib "u1" "B" "paper" "t2" started_store).1 = Return "u1").
Proof.
  assert (Hheld : is_Some (Redis.live contended_store (SessionStore.lock_name "u1")))
    by (vm_compute; eauto).
  split; [|split; [|split; [done|split; [done|split]]]].
  - intros lib. by apply choice_hand_lock_held.
  - by apply choice_hand_lock_held_store.
  - intros lib. apply choice_hand_never_cannot_start.
  - intros []; vm_compute; reflexivity.
Qed.

(** ** The theorems at work on the scenarios *)

Lemma judge_table_witness :
  reachable rock_scissors_session ∧
  (judge rock_scissors_session).1 = Return (mkResult RockWin (Some ["A"; "C"])).
Proof.
  assert (H : reachable rock_scissors_session).
  { exists "u1", (UsersIterable ["A"; "B"; "C"]),
      [CallChoose "A" Rock; CallChoose "B" Scissors; CallChoose "C" Rock].
    reflexivity. }
  split; [exact H|].
  destruct (judge_table rock_scissors_session H) as (_ & _ & Hrw & _).
  apply Hrw; vm_compute; congruence.
Defined.

Lemma choose_cases_witness :
  reachable open_session ∧
  choose "B" Scissors open_session =
    (Return tt,
     mkSession "u1" ["A"; "B"]
               [("A", mkChoice "A" Rock); ("B", mkChoice "B" Scissors)]) ∧
  choose "A" Paper open_session = (Raise AlreadyChosenError, open_session) ∧
  choose "Z" Rock open_session = (Raise NotInSessionError, open_session).
Proof.
  assert (H : reachable open_session).
  { exists "u1", (UsersIterable ["A"; "B"]), [CallChoose "A" Rock]. reflexivity. }
  split; [exact H|]. split; [|split].
  - destruct (choose_cases open_session "B" Scissors H) as (Hnew & _).
    apply Hnew; vm_compute.
    + apply list_elem_of_further, list_elem_of_here.
    + intros Hin. apply list_elem_of_singleton in Hin. discriminate.
  - destruct (choose_cases open_session "A" Paper H) as (_ & Hdup & _).
    apply Hdup. vm_compute. apply list_elem_of_here.
  - destruct (choose_cases open_session "Z" Rock H) as (_ & _ & Hout & _).
    apply Hout. vm_compute. intros Hin.
    apply elem_of_cons in Hin as [?|Hin]; [discriminate|].
    apply list_elem_of_singleton in Hin. discriminate.
Defined.

Lemma result_cases_witness :
  reachable open_session ∧
  result open_session = (Raise SessionNotClosedError, open_session).
Proof.
  assert (H : reachable open_session).
  { exists "u1", (UsersIterable ["A"; "B"]), [CallChoose "A" Rock]. reflexivity. }
  split; [exact H|].
  destruct (result_cases open_session H) as (_ & _ & _ & _ & Hfew & _).
  apply Hfew. vm_compute. lia.
Defined.

Lemma duplicate_participants_witness :
  reachable duplicate_session ∧
  ¬ NoDup (users duplicate_session) ∧
  length (users duplicate_session) = 3 ∧
  length (choices duplicate_session) = 2 ∧
  (result duplicate_session).1 = Return (mkResult RockWin (Some ["A"])).
Proof.
  assert (H : reachable duplicate_session).
  { exists "u1", (UsersIterable ["A"; "A"; "B"]),
      [CallChoose "A" Rock; CallChoose "A" Paper; CallChoose "B" Scissors].
    reflexivity. }
  assert (Hdup : ¬ NoDup (users duplicate_session)).
  { change (users duplicate_session) with ["A"; "A"; "B"].
    intros Hnd. apply NoDup_cons in Hnd as [Hn _]. apply Hn, list_elem_of_here. }
  assert (Hall : ∀ u, u ∈ users duplicate_session →
                      u ∈ PyDict.keys (choices duplicate_session)).
  { change (users duplicate_session) with ["A"; "A"; "B"].
    change (PyDict.keys (choices duplicate_session)) with ["A"; "B"].
    intros u Hu. apply elem_of_cons in Hu as [->|Hu]; [apply list_elem_of_here|].
    exact Hu. }
  split; [exact H|]. split; [exact Hdup|]. split; [reflexivity|]. split; [reflexivity|].
  destruct (duplicate_participants_close_early duplicate_session H Hdup Hall)
    as (Hres & _).
  rewrite Hres. reflexivity.
Defined.

Lemma from_str_case_ws_witness :
  PyStr.differ_case_ws " ROCK " "rock" ∧
  from_str " ROCK " = Return Rock ∧ from_str "rock" = Return Rock.
Proof.
  assert (H : PyStr.differ_case_ws " ROCK " "rock").
  { exists " ", "ROCK", " ", "", "rock", "".
    repeat split; try reflexivity.
    repeat (apply PyStr.same_cons; [reflexivity|]). apply PyStr.same_nil. }
  split; [exact H|].
  destruct (from_str_case_ws " ROCK " "rock" H) as (_ & Hh & _).
  apply Hh. reflexivity.
Defined.

Lemma create_set_if_absent_witness :
  SessionStore.create fresh_session empty_store =
    (Return tt,
     Redis.write empty_store "u1" (Redis.Pickled fresh_session) (1000 * 3600)) ∧
  SessionStore.create open_session started_store = (Return tt, started_store).
Proof.
  split.
  - destruct (create_set_if_absent fresh_session empty_store) as (Hnew & _).
    apply Hnew. reflexivity.
  - destruct (create_set_if_absent open_session started_store) as (_ & Hkeep & _).
    apply (Hkeep (Redis.Pickled fresh_session)). reflexivity.
Defined.

Lemma start_min_two_witness :
  start "A" "u1" empty_store =
    ("this game needs two or more users. request: `A`", empty_store) ∧
  (start "A,B" "u1" empty_store).1 = "session start: u1" ∧
  SessionStore.restore "u1" (start "A,B" "u1" empty_store).2 =
    (Return fresh_session, (start "A,B" "u1" empty_store).2).
Proof.
  split; [|split].
  - destruct (start_min_two "A" "u1" empty_store) as (Hfew & _).
    apply Hfew. vm_compute. lia.
  - destruct (start_min_two "A,B" "u1" empty_store) as (_ & Hok & _).
    destruct Hok as (Hst & _); [vm_compute; lia|]. rewrite Hst. reflexivity.
  - destruct (start_min_two "A,B" "u1" empty_store) as (_ & Hok & _).
    destruct Hok as (_ & _ & Hre); [vm_compute; lia|]. apply Hre. reflexivity.
Defined.

Lemma restore_cases_witness :
  SessionStore.restore "u1" started_store = (Return fresh_session, started_store) ∧
  SessionStore.restore "u2" started_store =
    (Raise SessionNotFoundError, started_store) ∧
  SessionStore.restore "u1" (Redis.advance 3600000 started_store) =
    (Return fresh_session, Redis.advance 3600000 started_store) ∧
  SessionStore.restore "u1" (Redis.advance 3600001 started_store) =
    (Raise SessionNotFoundError, Redis.advance 3600001 started_store).
Proof.
  split; [|split; [|split]].
  - destruct (restore_cases "u1" started_store) as (Hlive & _).
    apply Hlive. reflexivity.
  - destruct (restore_cases "u2" started_store) as (_ & _ & Hnever & _).
    apply Hnever. reflexivity.
  - destruct (restore_cases "u1" (Redis.advance 3600000 started_store))
      as (Hlive & _).
    apply Hlive. reflexivity.
  - destruct (restore_cases "u1" (Redis.advance 3600001 started_store))
      as (_ & _ & _ & Hexp & _).
    apply (Hexp (Redis.mkEntry (Redis.Pickled fresh_session) 3600000)).
    + reflexivity.
    + vm_compute. reflexivity.
Defined.

Lemma session_invariants_witness :
  session_id duplicate_session = "u1" ∧
  NoDup (PyDict.keys (choices duplicate_session)).
Proof.
  destruct (session_invariants "u1" (UsersIterable ["A"; "A"; "B"])
              [CallChoose "A" Rock; CallChoose "A" Paper; CallChoose "B" Scissors])
    as (_ & Hnd & _ & Hid & _).
  split; [exact Hid|exact Hnd].
Defined.

(** ** Worked examples *)

(** A, B and C throw the three different hands: a draw without winners. *)
Example three_way_draw :
  let s := run [CallChoose "A" Rock; CallChoose "B" Scissors; CallChoose "C" Paper]
               (Session_init "u1" (UsersIterable ["A"; "B"; "C"])) in
  (result s).1 = Return (mkResult Draw None).
Proof. vm_compute. reflexivity. Qed.

(** A throws Rock, B throws Scissors: A wins; A's second choice is lost. *)
Example run_example :
  let s := run [CallChoose "A" Rock; CallChoose "B" Scissors; CallChoose "A" Paper]
               (Session_init "u1" (UsersIterable ["A"; "B"])) in
  (result s).1 = Return (mkResult RockWin (Some ["A"])).
Proof. vm_compute. reflexivity. Qed.

(** Everybody throws Rock: a draw. *)
Example all_rock_draw :
  let s := run [CallChoose "A" Rock; CallChoose "B" Rock]
               (Session_init "u1" (UsersIterable ["A"; "B"])) in
  (result s).1 = Return (mkResult Draw None).
Proof. vm_compute. reflexivity. Qed.

(** A session without participants is closed from the start. *)
Example no_participants :
  (result (Session_init "u1" UsersNotIterable)).1 = Return (mkResult Draw None).
Proof. vm_compute. reflexivity. Qed.

(** A whole game through the handlers. *)
Example start_then_play :
  let '(_, r1) := start "A,B" "u1" empty_store in
  let '(_, r2) := choice_hand EntryRaises "u1" "A" " ROCK " "t1" r1 in
  let '(_, r3) := choice_hand EntryRaises "u1" "B" "Scissors" "t2" r2 in
  (session_result "u1" r3).1 = Return (mkResult RockWin (Some ["A"])) ∧
  (session_result "u1" r2).1 = Raise SessionNotClosedError ∧
  (get "u1" r3).1 = Return ("u1", ["A"; "B"]).
Proof. vm_compute. done. Qed.

(** The parameter "," names two participants, both the empty string. *)
Example start_two_empty_names :
  start_users "," = [""; ""] ∧ start_users "" = [""] ∧
  start_users "A,B,C" = ["A"; "B"; "C"].
Proof. vm_compute. done. Qed.

Example from_str_examples :
  from_str "Rock" = Return Rock ∧ from_str " ROCK " = Return Rock ∧
  from_str "scissors" = Return Scissors ∧ from_str "PaPeR" = Return Paper ∧
  from_str "ro ck" = Raise UndefinedEnumError ∧
  from_str "" = Raise UndefinedEnumError.
Proof. vm_compute. done. Qed.

(** * Further properties of the session *)

Lemma choose_failed (u : string) (h : Hand) (s : Session) (e : Error) (s' : Session) :
  choose u h s = (Raise e, s') → s' = s.
Proof.
  rewrite choose_eq. destruct (bool_decide _ && _); [done|].
  destruct (PyDict.contains u (choices s)); congruence.
Qed.

Lemma exec_prefix (c : call) (s : Session) :
  choices s `prefix_of` choices (exec c s).
Proof.
  destruct c as [u h| |]; simpl.
  - rewrite choose_eq.
    destruct (bool_decide (u ∈ users s)); simpl;
      [|by destruct (PyDict.contains _ _)].
    destruct (PyDict.contains u (choices s)) eqn:Hc; simpl; [done|].
    apply contains_false in Hc. rewrite setitem_fresh by done.
    by apply prefix_app_r.
  - by rewrite result_state.
  - by rewrite judge_state.
Qed.

Lemma run_prefix (cs : list call) (s : Session) :
  choices s `prefix_of` choices (run cs s).
Proof.
  induction cs as [|c cs IH] using rev_ind; [done|].
  rewrite run_snoc. etrans; [exact IH|]. apply exec_prefix.
Qed.

(** In a dictionary without repeated keys a key has one value. *)
Lemma NoDup_keys_functional {V} (d : PyDict.dict V) (k : string) (v1 v2 : V) :
  NoDup (PyDict.keys d) → (k, v1) ∈ d → (k, v2) ∈ d → v1 = v2.
Proof.
  unfold PyDict.keys. induction d as [|[k' v'] d IH]; intros Hnd H1 H2.
  - by apply elem_of_nil in H1.
  - simpl in Hnd. apply NoDup_cons in Hnd as [Hk Hnd].
    apply elem_of_cons in H1 as [E1|H1]; apply elem_of_cons in H2 as [E2|H2];
      simplify_eq.
    + done.
    + destruct Hk. by apply (list_elem_of_fmap_2 fst _ (k', v2)).
    + destruct Hk. by apply (list_elem_of_fmap_2 fst _ (k', v1)).
    + by apply IH.
Qed.

Lemma run_reachable (cs : list call) (s : Session) : reachable s → reachable (run cs s).
Proof.
  intros Hs. induction cs as [|c cs IH] using rev_ind; [done|].
  rewrite run_snoc. by apply reachable_exec.
Qed.

(** X1. The choices of a session only grow, at the end: whatever calls
    are made, the choices recorded before are still there, in the same
    order, and the choice a participant has made is never replaced. *)
Theorem choices_only_grow (s : Session) (cs : list call) :
  reachable s →
  choices s `prefix_of` choices (run cs s) ∧
  (∀ u c c', (u, c) ∈ choices s → (u, c') ∈ choices (run cs s) → c' = c).
Proof.
  intros Hs. pose proof (run_prefix cs s) as Hpre. split; [done|].
  intros u c c' Hc Hc'.
  pose proof (reachable_well_formed _ (run_reachable cs s Hs)) as [_ Hnd].
  eapply NoDup_keys_functional; [exact Hnd|exact Hc'|].
  by eapply elem_of_prefix.
Qed.

Lemma exec_closed (c : call) (s : Session) : closed s → exec c s = s.
Proof.
  intros Hcl. destruct c as [u h| |]; simpl;
    [|apply result_state|apply judge_state].
  rewrite choose_eq.
  destruct (bool_decide (u ∈ users s)) eqn:Hu; simpl;
    [|by destruct (PyDict.contains _ _)].
  apply bool_decide_eq_true in Hu. apply Hcl, contains_spec in Hu.
  by rewrite Hu.
Qed.

(** X2. Once every participant has chosen, the session is final: no
    sequence of calls changes it, every further [choose] raises, and
    [result] keeps returning the same judgment. *)
Theorem closed_session_is_final (s : Session) (cs : list call) :
  closed s →
  run cs s = s ∧
  result (run cs s) = result s ∧
  (∀ u h, ∃ e, choose u h s = (Raise e, s)).
Proof.
  intros Hcl.
  assert (Hrun : run cs s = s).
  { induction cs as [|c cs IH] using rev_ind; [done|].
    rewrite run_snoc, IH. by apply exec_closed. }
  split; [done|]. split; [by rewrite Hrun|].
  intros u h. rewrite choose_eq.
  destruct (bool_decide (u ∈ users s)) eqn:Hu; simpl.
  - apply bool_decide_eq_true in Hu. apply Hcl, contains_spec in Hu.
    rewrite Hu. simpl. eauto.
  - destruct (PyDict.contains _ _); eauto.
Qed.

Lemma run_app (cs1 cs2 : list call) (s : Session) :
  run (cs1 ++ cs2) s = run cs2 (run cs1 s).
Proof. unfold run. by rewrite fold_left_app. Qed.

Lemma keys_prefix (s t : Session) (u : string) :
  choices s `prefix_of` choices t →
  u ∈ PyDict.keys (choices s) → u ∈ PyDict.keys (choices t).
Proof.
  intros [k ->]. rewrite keys_app, elem_of_app. by left.
Qed.

(** After [choose u h], successful or not, a participant [u] has a choice. *)
Lemma exec_choose_in_keys (u : string) (h : Hand) (s : Session) :
  u ∈ users s → u ∈ PyDict.keys (choices (exec (CallChoose u h) s)).
Proof.
  intros Hu. simpl. rewrite choose_eq.
  rewrite (bool_decide_eq_true_2 _ Hu). simpl.
  destruct (PyDict.contains u (choices s)) eqn:Hc; simpl.
  - by apply contains_spec.
  - apply contains_false in Hc. rewrite setitem_fresh by done. simpl.
    rewrite keys_app, elem_of_app. right. apply list_elem_of_here.
Qed.

Lemma attempted_in_keys (cs : list call) (s : Session) (u : string) (h : Hand) :
  CallChoose u h ∈ cs → u ∈ users s → u ∈ PyDict.keys (choices (run cs s)).
Proof.
  intros Hin Hu. induction cs as [|c cs IH] using rev_ind.
  - by apply elem_of_nil in Hin.
  - rewrite run_snoc. apply elem_of_app in Hin as [Hin|Hin].
    + eapply keys_prefix; [apply exec_prefix|by apply IH].
    + apply list_elem_of_singleton in Hin as <-.
      apply exec_choose_in_keys. by rewrite (proj2 (run_frame cs s)).
Qed.

(** A key of [choices] was there before or was put by one of the calls. *)
Lemma keys_attempted (cs : list call) (s : Session) (u : string) :
  u ∈ PyDict.keys (choices (run cs s)) →
  u ∈ PyDict.keys (choices s) ∨ ∃ h, CallChoose u h ∈ cs.
Proof.
  induction cs as [|c cs IH] using rev_ind; [by left|].
  rewrite run_snoc. intros Hk.
  assert (Hcase : u ∈ PyDict.keys (choices (run cs s)) ∨ ∃ h, c = CallChoose u h).
  { destruct c as [v h| |]; simpl in Hk.
    - rewrite choose_eq in Hk.
      destruct (bool_decide (v ∈ users (run cs s)) &&
                negb (PyDict.contains v (choices (run cs s)))) eqn:Hb.
      + apply andb_true_iff in Hb as [_ Hc]. apply negb_true_iff in Hc.
        apply contains_false in Hc. simpl in Hk.
        rewrite setitem_fresh, keys_app, elem_of_app in Hk by done.
        destruct Hk as [Hk|Hk]; [by left|].
        apply list_elem_of_singleton in Hk. simpl in Hk. subst. right. eauto.
      + left. by destruct (PyDict.contains v (choices (run cs s))).
    - left. by rewrite result_state in Hk.
    - left. by rewrite judge_state in Hk. }
  destruct Hcase as [Hk'|[h ->]].
  - destruct (IH Hk') as [?|[h Hh]]; [by left|].
    right. exists h. apply elem_of_app. by left.
  - right. exists h. apply elem_of_app. right. apply list_elem_of_here.
Qed.

(** X3. A session is closed as soon as each participant has called
    [choose], in any order and among any other calls, failed ones
    included: [result] then returns the judgment. *)
Theorem everyone_chooses_closes (s : Session) (cs : list call) :
  reachable s →
  (∀ u, u ∈ users s → ∃ h, CallChoose u h ∈ cs) →
  closed (run cs s) ∧
  result (run cs s) = judge (run cs s) ∧
  ∃ r, (result (run cs s)).1 = Return r.
Proof.
  intros Hs Hall.
  assert (Hcl : closed (run cs s)).
  { intros u Hu. rewrite (proj2 (run_frame cs s)) in Hu.
    destruct (Hall u Hu) as [h Hh]. by eapply attempted_in_keys. }
  pose proof (reachable_well_formed _ (run_reachable cs s Hs)) as Hwf.
  assert (Hres : result (run cs s) = judge (run cs s)).
  { rewrite result_eq.
    by rewrite (bool_decide_eq_true_2 _ (proj2 (closed_iff _ Hwf) Hcl)). }
  split; [done|]. split; [done|]. rewrite Hres, judge_eq. eauto.
Qed.

(** X4. The first hand a participant submits is the one recorded: in a
    new session, a [choose] by a participant who has not called [choose]
    before is recorded whatever calls come before and after it. *)
Theorem first_choice_wins (uuid : string) (l : list string)
    (pre post : list call) (u : string) (h : Hand) :
  u ∈ l →
  (∀ h', CallChoose u h' ∉ pre) →
  (u, mkChoice u h) ∈
    choices (run (pre ++ CallChoose u h :: post) (Session_init uuid (UsersIterable l))).
Proof.
  intros Hu Hpre. set (s0 := Session_init uuid (UsersIterable l)).
  rewrite run_app. change (CallChoose u h :: post) with ([CallChoose u h] ++ post).
  rewrite run_app. eapply elem_of_prefix; [|apply run_prefix].
  assert (Hfresh : u ∉ PyDict.keys (choices (run pre s0))).
  { intros Hk. apply keys_attempted in Hk as [Hk|[h' Hh']].
    - by apply elem_of_nil in Hk.
    - by apply (Hpre h'). }
  change (run [CallChoose u h] (run pre s0))
    with (choose u h (run pre s0)).2.
  rewrite choose_eq.
  assert (Hin : u ∈ users (run pre s0)) by (by rewrite (proj2 (run_frame pre s0))).
  rewrite (bool_decide_eq_true_2 _ Hin).
  apply contains_false in Hfresh as Hc. rewrite Hc. simpl.
  rewrite setitem_fresh by done. apply elem_of_app. right. apply list_elem_of_here.
Qed.

(** X5. A session the program can hold is closed exactly when it has as
    many choices as distinct participants; until then it has fewer. *)
Theorem closed_iff_count (s : Session) :
  reachable s →
  length (choices s) ≤ size (list_to_set (users s) : gset string) ∧
  (closed s ↔ length (choices s) = size (list_to_set (users s) : gset string)).
Proof.
  intros Hs. pose proof (reachable_well_formed s Hs) as Hwf.
  assert (Hsub : list_to_set (PyDict.keys (choices s)) ⊆@{gset string}
                 list_to_set (users s)).
  { intros u. rewrite !elem_of_list_to_set. by apply well_formed_keys. }
  rewrite <- (well_formed_size s Hwf). split.
  - by apply subseteq_size.
  - rewrite <- (closed_iff s Hwf). split; [by intros ->|].
    intros Heq. symmetry. apply set_subseteq_size_eq; [done|lia].
Qed.

(** ** The judgment *)

Lemma throwers_elem (h : Hand) (s : Session) (u : string) :
  u ∈ throwers h s ↔ ∃ c, (u, c) ∈ choices s ∧ hand c = h.
Proof.
  unfold throwers, PyDict.keys. rewrite list_elem_of_fmap. split.
  - intros ([k c] & -> & Hin). apply list_elem_of_filter in Hin as [Hh Hin]. eauto.
  - intros (c & Hin & Hh). exists (u, c). split; [done|].
    by apply list_elem_of_filter.
Qed.

Lemma throwers_keys (h : Hand) (s : Session) (u : string) :
  u ∈ throwers h s → u ∈ PyDict.keys (choices s).
Proof.
  intros (c & Hin & _)%throwers_elem. by apply (list_elem_of_fmap_2 fst _ (u, c)).
Qed.

Lemma throwers_NoDup (h : Hand) (s : Session) :
  NoDup (PyDict.keys (choices s)) → NoDup (throwers h s).
Proof.
  unfold throwers, PyDict.keys. induction (choices s) as [|[k c] d IH]; [done|].
  simpl. intros [Hk Hnd]%NoDup_cons.
  destruct (decide (hand c = h)) as [Hh|Hh].
  - rewrite filter_cons_True by done. simpl. apply NoDup_cons. split; [|auto].
    intros Hin. apply Hk. apply list_elem_of_fmap in Hin as ([k' c'] & -> & Hin).
    apply list_elem_of_filter in Hin as [_ Hin].
    by apply (list_elem_of_fmap_2 fst _ (k', c')).
  - rewrite filter_cons_False by done. auto.
Qed.

Lemma throwers_disjoint (h h' : Hand) (s : Session) (u : string) :
  NoDup (PyDict.keys (choices s)) → h ≠ h' →
  u ∈ throwers h s → u ∉ throwers h' s.
Proof.
  intros Hnd Hne (c & Hc & Hh)%throwers_elem (c' & Hc' & Hh')%throwers_elem.
  apply Hne. rewrite <- Hh, <- Hh'. f_equal.
  by eapply NoDup_keys_functional.
Qed.

Lemma truthy_elem {A} (l : list A) : truthy l = true → ∃ x, x ∈ l.
Proof. destruct l as [|x l]; [done|]. intros _. exists x. apply list_elem_of_here. Qed.

(** X6. When [judge] names winners, the game is not a draw, the winners
    are participants who chose, each listed once, they are all those who
    threw one same hand, and somebody who chose is not among them.  When
    it names none, the game is a draw. *)
Theorem winners_are_choosers (s : Session) (r : Result) :
  reachable s →
  (judge s).1 = Return r →
  match winners r with
  | None => status r = Draw
  | Some w =>
      status r ≠ Draw ∧ w ≠ [] ∧ NoDup w ∧
      (∀ u, u ∈ w → u ∈ users s ∧ u ∈ PyDict.keys (choices s)) ∧
      (∃ h, w = throwers h s) ∧
      (∃ u, u ∈ PyDict.keys (choices s) ∧ u ∉ w)
  end.
Proof.
  intros Hs. pose proof (reachable_well_formed s Hs) as Hwf.
  pose proof (proj2 Hwf) as Hnd.
  rewrite judge_eq, !recorded_throwers by done. simpl. intros [= <-].
  assert (Hgen : ∀ h h', h ≠ h' → truthy (throwers h s) = true →
     truthy (throwers h' s) = true →
     throwers h s ≠ [] ∧ NoDup (throwers h s) ∧
     (∀ u, u ∈ throwers h s → u ∈ users s ∧ u ∈ PyDict.keys (choices s)) ∧
     (∃ g, throwers h s = throwers g s) ∧
     (∃ u, u ∈ PyDict.keys (choices s) ∧ u ∉ throwers h s)).
  { intros h h' Hne Hh Hh'. split; [by apply truthy_true|].
    split; [by apply throwers_NoDup|]. split; [|split; [by exists h|]].
    - intros u Hu. apply throwers_keys in Hu as Hk. split; [|done].
      by apply well_formed_keys.
    - apply truthy_elem in Hh' as [u Hu]. exists u.
      split; [by eapply throwers_keys|].
      eapply throwers_disjoint; [done| |exact Hu]. congruence. }
  unfold verdict.
  destruct (truthy (throwers Rock s)) eqn:Hr,
           (truthy (throwers Scissors s)) eqn:Hc,
           (truthy (throwers Paper s)) eqn:Hp; simpl; try done.
  - split; [done|]. by apply (Hgen Rock Scissors).
  - split; [done|]. by apply (Hgen Paper Rock).
  - split; [done|]. by apply (Hgen Scissors Paper).
Qed.

Lemma recorded_Permutation (h : Hand) (vs1 vs2 : list Choice) :
  vs1 ≡ₚ vs2 → recorded h vs1 ≡ₚ recorded h vs2.
Proof. intros Hp. unfold recorded. by rewrite Hp. Qed.

Lemma truthy_Permutation {A} (l1 l2 : list A) : l1 ≡ₚ l2 → truthy l1 = truthy l2.
Proof.
  intros Hp. destruct l1 as [|x l1], l2 as [|y l2]; try done.
  - by apply Permutation_nil_cons in Hp.
  - symmetry in Hp. by apply Permutation_nil_cons in Hp.
Qed.

(** X7. The order in which the choices were made does not change the
    status that [judge] returns, and changes the winners only in the
    order in which they are listed. *)
Theorem judge_order_irrelevant (s1 s2 : Session) :
  choices s1 ≡ₚ choices s2 →
  ∃ r1 r2,
    (judge s1).1 = Return r1 ∧ (judge s2).1 = Return r2 ∧
    status r1 = status r2 ∧
    match winners r1, winners r2 with
    | Some w1, Some w2 => w1 ≡ₚ w2
    | None, None => True
    | _, _ => False
    end.
Proof.
  intros Hp. rewrite !judge_eq. simpl. eexists _, _.
  split; [done|]. split; [done|].
  assert (Hv : PyDict.values (choices s1) ≡ₚ PyDict.values (choices s2))
    by (unfold PyDict.values; by rewrite Hp).
  pose proof (recorded_Permutation Rock _ _ Hv) as HR.
  pose proof (recorded_Permutation Scissors _ _ Hv) as HS.
  pose proof (recorded_Permutation Paper _ _ Hv) as HP.
  unfold verdict.
  rewrite <- (truthy_Permutation _ _ HR), <- (truthy_Permutation _ _ HS),
    <- (truthy_Permutation _ _ HP).
  destruct (truthy (recorded Rock _)), (truthy (recorded Scissors _)),
    (truthy (recorded Paper _)); simpl; done.
Qed.

(** X8. A session constructed from a [dict], from an object that is not
    iterable or from an empty list has no participants: every [choose]
    raises [NotInSessionError], no call changes the session, and
    [result] returns a draw from the start. *)
Theorem session_without_participants (uuid : string) (arg : users_arg)
    (cs : list call) :
  match arg with UsersIterable (_ :: _) => False | _ => True end →
  let s := Session_init uuid arg in
  run cs s = s ∧
  (∀ u h, choose u h s = (Raise NotInSessionError, s)) ∧
  result s = (Return (mkResult Draw None), s).
Proof.
  intros Harg s.
  assert (Hus : users s = []) by (by destruct arg as [[|]| |]).
  assert (Hcl : closed s).
  { intros u Hu. rewrite Hus in Hu. by apply elem_of_nil in Hu. }
  split; [|split].
  - induction cs as [|c cs IH] using rev_ind; [done|].
    rewrite run_snoc, IH. by apply exec_closed.
  - intros u h. rewrite choose_eq, Hus.
    rewrite (bool_decide_eq_false_2 (u ∈ [])) by apply not_elem_of_nil.
    by destruct arg.
  - rewrite result_eq.
    rewrite bool_decide_eq_true_2 by (by rewrite Hus).
    rewrite judge_eq. by destruct arg.
Qed.

(** * Further properties of the parsers *)
Section parse_facts.
Import PyStr.

Lemma append_cons c a b : String c a +:+ b = String c (a +:+ b).
Proof. reflexivity. Qed.

Lemma lstrip_decompose s : ∃ p, s = p +:+ lstrip s ∧ all_space p = true.
Proof.
  induction s as [|c s (p & Hp & Hsp)]; [exists EmptyString; by split|].
  simpl. destruct (is_space c) eqn:Hc.
  - exists (String c p). simpl. rewrite Hc, append_cons, <- Hp. by split.
  - exists EmptyString. by split.
Qed.

Lemma rstrip_decompose s : ∃ q, s = rstrip s +:+ q ∧ all_space q = true.
Proof.
  induction s as [|c s (q & Hq & Hsq)]; [exists EmptyString; by split|].
  simpl. destruct (rstrip s) as [|a r] eqn:Hr.
  - change (s = q) in Hq. subst q. destruct (is_space c) eqn:Hc.
    + exists (String c s). simpl. by rewrite Hc.
    + exists s. by split.
  - exists q. split; [|done]. by rewrite append_cons, <- Hq.
Qed.

(** A text is its trimmed form between two runs of white space. *)
Lemma strip_decompose s :
  ∃ p q, s = p +:+ strip s +:+ q ∧ all_space p = true ∧ all_space q = true.
Proof.
  destruct (lstrip_decompose s) as (p & Hp & Hsp).
  destruct (rstrip_decompose (lstrip s)) as (q & Hq & Hsq).
  exists p, q. unfold strip. by rewrite <- Hq.
Qed.

Lemma append_nil_r s : s +:+ EmptyString = s.
Proof. induction s as [|c s IH]; [done|]. by rewrite append_cons, IH. Qed.

Lemma append_assoc a b c : (a +:+ b) +:+ c = a +:+ b +:+ c.
Proof. induction a as [|x a IH]; [done|]. by rewrite !append_cons, IH. Qed.

Lemma same_letters_of_lower a b : lower a = lower b → same_letters a b.
Proof.
  revert b. induction a as [|c a IH]; intros [|d b]; simpl; try done.
  - constructor.
  - intros [= Hc Hl]. constructor; auto.
Qed.

(** X9. [from_str] accepts exactly the texts that differ from the name
    of a hand in letter case and surrounding white space only, and
    returns that hand. *)
Theorem from_str_accepts_exactly (t : string) (h : Hand) :
  from_str t = Return h ↔ differ_case_ws t (Hand_name h).
Proof.
  split.
  - rewrite from_str_eq. unfold hand_of_name.
    intros Hh.
    assert (Hl : lower (strip t) = Hand_name h).
    { repeat case_decide; simplify_eq; done. }
    destruct (strip_decompose t) as (p & q & Ht & Hp & Hq).
    exists p, (strip t), q, EmptyString, (Hand_name h), EmptyString.
    split; [done|]. split; [by destruct h|]. repeat (split; [done|]).
    apply same_letters_of_lower. rewrite Hl. by destruct h.
  - intros Hd. unfold from_str. rewrite (differ_case_ws_normal _ _ Hd).
    by destruct h.
Qed.

Lemma concat_split_aux sep cur s :
  String.concat (String sep EmptyString) (split_aux sep cur s) = cur +:+ s.
Proof.
  revert cur. induction s as [|c s IH]; intros cur; simpl;
    [by rewrite append_nil_r|].
  destruct (Ascii.eqb_spec c sep) as [->|Hne].
  - specialize (IH EmptyString).
    destruct (split_aux sep EmptyString s) as [|x xs] eqn:Hx.
    + by destruct s; simpl in Hx; [|destruct (Ascii.eqb _ _)].
    + change (cur +:+ String sep EmptyString +:+
                String.concat (String sep EmptyString) (x :: xs) =
              cur +:+ String sep s).
      by rewrite IH.
  - rewrite IH. by rewrite append_assoc.
Qed.

Lemma split_aux_no_sep sep cur s :
  contains_char sep cur = false →
  Forall (λ f, contains_char sep f = false) (split_aux sep cur s).
Proof.
  revert cur. induction s as [|c s IH]; intros cur Hcur; simpl.
  - by constructor.
  - destruct (Ascii.eqb c sep) eqn:Hc.
    + constructor; [done|]. by apply IH.
    + apply IH. clear IH. induction cur as [|d cur IHc]; simpl in *.
      * by rewrite Hc.
      * destruct (Ascii.eqb d sep); [done|]. auto.
Qed.

(** X10. The participants that [start] reads from its parameter are its
    comma-separated fields: none of them contains a comma, there is at
    least one, and joined with commas they give the parameter back. *)
Theorem start_users_fields (users_param : string) :
  String.concat "," (start_users users_param) = users_param ∧
  Forall (λ u, contains_char "," u = false) (start_users users_param) ∧
  start_users users_param ≠ [].
Proof.
  unfold start_users, split.
  destruct (contains_char "," users_param) eqn:Hc.
  - split; [apply concat_split_aux|]. split; [by apply split_aux_no_sep|].
    intros Hnil. pose proof (split_aux_length "," EmptyString users_param) as Hl.
    by rewrite Hnil in Hl.
  - split; [done|]. split; [|done]. by constructor.
Qed.

Lemma split_aux_field sep cur x :
  contains_char sep x = false → split_aux sep cur x = [cur +:+ x].
Proof.
  revert cur. induction x as [|c x IH]; intros cur; simpl.
  - intros _. by rewrite append_nil_r.
  - destruct (Ascii.eqb c sep); [done|]. intros Hx. rewrite IH by done.
    by rewrite append_assoc.
Qed.
End parse_facts.

Section join_facts.
Import PyStr.

Lemma split_aux_join sep cur x rest :
  contains_char sep x = false →
  split_aux sep cur (x +:+ String sep rest) =
    (cur +:+ x) :: split_aux sep EmptyString rest.
Proof.
  revert cur. induction x as [|c x IH]; intros cur; simpl.
  - intros _. change (EmptyString +:+ String sep rest) with (String sep rest).
    simpl. by rewrite Ascii.eqb_refl, append_nil_r.
  - destruct (Ascii.eqb c sep) eqn:Hc; [done|]. intros Hx.
    rewrite IH by done. by rewrite append_assoc.
Qed.

Lemma contains_char_join sep x rest :
  contains_char sep (x +:+ String sep rest) = true.
Proof.
  induction x as [|c x IH].
  - change (EmptyString +:+ String sep rest) with (String sep rest).
    simpl. by rewrite Ascii.eqb_refl.
  - rewrite append_cons. simpl. by destruct (Ascii.eqb c sep).
Qed.

Lemma split_concat sep l :
  l ≠ [] →
  Forall (λ u, contains_char sep u = false) l →
  split sep (String.concat (String sep EmptyString) l) = l.
Proof.
  intros Hne Hall. unfold split.
  induction Hall as [|x l Hx Hall IH]; [done|].
  destruct l as [|y l].
  - simpl. by rewrite split_aux_field.
  - change (String.concat (String sep EmptyString) (x :: y :: l))
      with (x +:+ String sep (String.concat (String sep EmptyString) (y :: l))).
    rewrite split_aux_join by done. f_equal. by apply IH.
Qed.

(** X11. A list of names without commas, joined with commas, is read
    back by [start] as the same list, in the same order; so [start]
    refuses exactly the lists of one name. *)
Theorem start_users_join (l : list string) :
  l ≠ [] →
  Forall (λ u, contains_char "," u = false) l →
  start_users (String.concat "," l) = l.
Proof.
  intros Hne Hall. unfold start_users.
  destruct l as [|x [|y l]]; [done| |].
  - simpl. by rewrite (Forall_inv Hall).
  - change (String.concat "," (x :: y :: l))
      with (x +:+ String "," (String.concat "," (y :: l))).
    rewrite contains_char_join.
    change (x +:+ String "," (String.concat "," (y :: l)))
      with (String.concat "," (x :: y :: l)).
    by apply split_concat.
Qed.
End join_facts.

(** * Further properties of the store and the handlers *)

Lemma length_append (a b : string) :
  String.length (a +:+ b) = String.length a + String.length b.
Proof. induction a as [|c a IH]; [done|]. rewrite append_cons. simpl. by rewrite IH. Qed.

(** The key of a lock is never the key of the session it protects. *)
Lemma lock_name_ne (sid : string) : SessionStore.lock_name sid ≠ sid.
Proof.
  intros Heq. apply (f_equal String.length) in Heq.
  unfold SessionStore.lock_name in Heq. rewrite length_append in Heq.
  simpl in Heq. lia.
Qed.

Lemma append_inj_r (p a b : string) : p +:+ a = p +:+ b → a = b.
Proof.
  induction p as [|c p IH]; [done|]. rewrite !append_cons. intros [= ?]. auto.
Qed.

(** Distinct sessions have distinct locks. *)
Lemma lock_name_inj (a b : string) :
  SessionStore.lock_name a = SessionStore.lock_name b → a = b.
Proof. apply append_inj_r. Qed.

Lemma store_eq (s : Session) (r : Redis.state) :
  SessionStore.store s r =
    (Return tt, Redis.write r (session_id s) (Redis.Pickled s) (1000 * 3600)).
Proof. reflexivity. Qed.

Lemma live_del_eq (r : Redis.state) (name : string) :
  Redis.live (Redis.del name r) name = None.
Proof. unfold Redis.live, Redis.del. simpl. by rewrite lookup_delete_eq. Qed.

Lemma live_del_ne (r : Redis.state) (name k : string) :
  name ≠ k → Redis.live (Redis.del name r) k = Redis.live r k.
Proof. intros Hne. unfold Redis.live, Redis.del. simpl. by rewrite lookup_delete_ne. Qed.

(** X12. [store] never raises, [SessionAlreadyExistError] included: it
    writes the session under its identifier whatever was there, leaves
    the other keys alone, and the session can be restored from then on
    up to and including the instant one hour later, and no longer once
    the clock is past it. *)
Theorem store_then_restore (s : Session) (r : Redis.state) :
  let r' := (SessionStore.store s r).2 in
  (SessionStore.store s r).1 = Return tt ∧
  (∀ dt, SessionStore.restore (session_id s) (Redis.advance dt r') =
         (if (dt <=? 1000 * 3600)%Z then Return s else Raise SessionNotFoundError,
          Redis.advance dt r')) ∧
  SessionStore.restore (session_id s) r' = (Return s, r') ∧
  (∀ k, k ≠ session_id s → Redis.live r' k = Redis.live r k).
Proof.
  intros r'. subst r'. rewrite store_eq. simpl.
  split; [done|]. split; [|split].
  - intros dt. rewrite restore_eq, live_advance_write. by destruct (dt <=? _)%Z.
  - by rewrite restore_eq, live_write_eq.
  - intros k Hk. by apply live_write_ne.
Qed.

Lemma choice_hand_unlocked_eq (lib : lock_entry) (sid u hand token : string)
    (r : Redis.state) (s : Session) :
  Redis.live r sid = Some (Redis.Pickled s) →
  session_id s = sid →
  Redis.live r (SessionStore.lock_name sid) = None →
  choice_hand lib sid u hand token r =
    match from_str hand with
    | Raise e => (Raise e, after_failure sid token r)
    | Return h =>
        match choose u h s with
        | (Return _, s') => (Return sid, after_success sid token s' r)
        | (Raise e, _) => (Raise e, after_failure sid token r)
        end
    end.
Proof.
  intros Hs Hid Hlock. pose proof (lock_name_ne sid) as Hne.
  unfold choice_hand, Redis.lock_acquire, Redis.set_px_nx. rewrite Hlock.
  set (r0 := Redis.write r _ _ _).
  assert (Hs0 : Redis.live r0 sid = Some (Redis.Pickled s))
    by (subst r0; by rewrite live_write_ne).
  assert (Hl0 : Redis.live r0 (SessionStore.lock_name sid) = Some (Redis.Token token))
    by (subst r0; by rewrite live_write_eq).
  assert (Hrel0 : Redis.lock_release (SessionStore.lock_name sid) token r0 =
                  (Return tt, after_failure sid token r)).
  { unfold Redis.lock_release, Redis.get. by rewrite Hl0, String.eqb_refl. }
  unfold choice_body. rewrite restore_eq, Hs0.
  destruct (from_str hand) as [h|e]; [|by rewrite Hrel0].
  destruct (choose u h s) as [[[]|e] s'] eqn:Hch; [|by rewrite Hrel0].
  assert (Hid' : session_id s' = sid).
  { pose proof (exec_frame (CallChoose u h) s) as [Hf _].
    simpl in Hf. rewrite Hch in Hf. simpl in Hf. congruence. }
  rewrite store_eq, Hid'. unfold Redis.lock_release, Redis.get.
  rewrite live_write_ne by done. by rewrite Hl0, String.eqb_refl.
Qed.

Lemma after_failure_lookup (sid token k : string) (r : Redis.state) :
  Redis.db (after_failure sid token r) !! k =
    if decide (SessionStore.lock_name sid = k) then None else Redis.db r !! k.
Proof.
  unfold after_failure, Redis.del, Redis.write. simpl.
  rewrite lookup_delete. case_decide; [done|]. by rewrite lookup_insert_ne.
Qed.

Lemma after_success_lookup (sid token k : string) (s' : Session) (r : Redis.state) :
  Redis.db (after_success sid token s' r) !! k =
    if decide (SessionStore.lock_name sid = k) then None
    else if decide (sid = k)
         then Some (Redis.mkEntry (Redis.Pickled s') (Redis.now r + 1000 * 3600))
         else Redis.db r !! k.
Proof.
  unfold after_success, Redis.del, Redis.write. simpl.
  rewrite lookup_delete. case_decide; [done|].
  rewrite lookup_insert. case_decide; [done|]. by rewrite lookup_insert_ne.
Qed.

Lemma after_failure_live (sid token k : string) (r : Redis.state) :
  Redis.live r (SessionStore.lock_name sid) = None →
  Redis.live (after_failure sid token r) k = Redis.live r k.
Proof.
  intros Hl. unfold Redis.live at 1. rewrite after_failure_lookup.
  case_decide as Hk; [by subst|done].
Qed.

(** X13. A submission for a stored session whose lock is free acts on
    the stored session as [choose] acts on a session: it returns the
    session id when [choose] returns and raises what [from_str] or
    [choose] raises; afterwards the store holds the session that [choose]
    leaves, the lock is free again, and no other key has changed. *)
Theorem choice_hand_refines_choose (lib : lock_entry) (sid u hand token : string)
    (r : Redis.state) (s : Session) :
  Redis.live r sid = Some (Redis.Pickled s) →
  session_id s = sid →
  Redis.live r (SessionStore.lock_name sid) = None →
  let s' := match call_of (u, hand, token) with Some c => exec c s | None => s end in
  let r' := (choice_hand lib sid u hand token r).2 in
  (choice_hand lib sid u hand token r).1 =
    match from_str hand with
    | Raise e => Raise e
    | Return h =>
        match (choose u h s).1 with Return _ => Return sid | Raise e => Raise e end
    end ∧
  Redis.live r' sid = Some (Redis.Pickled s') ∧
  Redis.live r' (SessionStore.lock_name sid) = None ∧
  Redis.now r' = Redis.now r ∧
  (∀ k, k ≠ sid → k ≠ SessionStore.lock_name sid →
        Redis.db r' !! k = Redis.db r !! k).
Proof.
  intros Hs Hid Hlock s' r'. subst s' r'. pose proof (lock_name_ne sid) as Hne.
  rewrite (choice_hand_unlocked_eq lib sid u hand token r s) by done.
  unfold call_of. simpl.
  assert (Hfail : ∀ e : Error,
    Redis.live (after_failure sid token r) sid = Some (Redis.Pickled s) ∧
    Redis.live (after_failure sid token r) (SessionStore.lock_name sid) = None ∧
    Redis.now (after_failure sid token r) = Redis.now r ∧
    (∀ k, k ≠ sid → k ≠ SessionStore.lock_name sid →
          Redis.db (after_failure sid token r) !! k = Redis.db r !! k)).
  { intros _. rewrite !after_failure_live by done.
    split; [done|]. split; [done|]. split; [done|].
    intros k _ Hk. rewrite after_failure_lookup. by case_decide. }
  destruct (from_str hand) as [h|e]; [|split; [done|exact (Hfail e)]].
  destruct (choose u h s) as [[[]|e] s'] eqn:Hch;
    cbn [fst snd exec]; rewrite Hch; cbn [fst snd].
  - split; [done|]. split; [|split; [|split; [done|]]].
    + unfold Redis.live. rewrite after_success_lookup.
      rewrite decide_False, decide_True by done. simpl.
      destruct (Z.leb_spec (Redis.now r) (Redis.now r + 1000 * 3600)); [done|lia].
    + unfold Redis.live. rewrite after_success_lookup. by rewrite decide_True.
    + intros k Hk1 Hk2. rewrite after_success_lookup.
      by rewrite !decide_False.
  - split; [done|]. apply choose_failed in Hch as ->. exact (Hfail e).
Qed.

(** X14. A successful submission gives the session a new hour to live,
    counted from the submission, however little was left: it can be
    restored up to and including the instant one hour later and no longer
    once the clock is past it.  A failed submission leaves the record and
    its deadline as they were. *)
Theorem choice_hand_expiry (lib : lock_entry) (sid u hand token : string)
    (r : Redis.state) (s : Session) :
  Redis.live r sid = Some (Redis.Pickled s) →
  session_id s = sid →
  Redis.live r (SessionStore.lock_name sid) = None →
  let r' := (choice_hand lib sid u hand token r).2 in
  match (choice_hand lib sid u hand token r).1 with
  | Return _ =>
      ∃ s', Redis.db r' !! sid =
              Some (Redis.mkEntry (Redis.Pickled s') (Redis.now r + 1000 * 3600)) ∧
            ∀ dt, SessionStore.restore sid (Redis.advance dt r') =
                    (if (dt <=? 1000 * 3600)%Z then Return s'
                     else Raise SessionNotFoundError, Redis.advance dt r')
  | Raise _ => Redis.db r' !! sid = Redis.db r !! sid
  end.
Proof.
  intros Hs Hid Hlock r'. subst r'. pose proof (lock_name_ne sid) as Hne.
  rewrite (choice_hand_unlocked_eq lib sid u hand token r s) by done.
  assert (Hfail : Redis.db (after_failure sid token r) !! sid = Redis.db r !! sid).
  { rewrite after_failure_lookup. by rewrite decide_False. }
  destruct (from_str hand) as [h|e]; [|done].
  destruct (choose u h s) as [[[]|e] s'] eqn:Hch; cbn [fst snd]; [|done].
  assert (Hdb : Redis.db (after_success sid token s' r) !! sid =
    Some (Redis.mkEntry (Redis.Pickled s') (Redis.now r + 1000 * 3600))).
  { rewrite after_success_lookup. by rewrite decide_False, decide_True. }
  exists s'. split; [done|]. intros dt. rewrite restore_eq.
  unfold Redis.live, Redis.advance. cbn [Redis.db Redis.now].
  rewrite Hdb. cbn [Redis.val Redis.deadline].
  change (Redis.now (after_success sid token s' r)) with (Redis.now r).
  destruct (Z.leb_spec (Redis.now r + dt) (Redis.now r + 1000 * 3600)),
    (Z.leb_spec dt (1000 * 3600)); (done || lia).
Qed.






(** ** An invariant of the store *)

Lemma consistent_write_token (r : Redis.state) (name t : string) (ttl : Z) :
  store_consistent r → store_consistent (Redis.write r name (Redis.Token t) ttl).
Proof.
  intros Hr k e s. unfold Redis.write. simpl. rewrite lookup_insert.
  case_decide; [intros [= <-]; done|]. apply Hr.
Qed.

Lemma consistent_write_session (r : Redis.state) (s : Session) (ttl : Z) :
  reachable s → store_consistent r →
  store_consistent (Redis.write r (session_id s) (Redis.Pickled s) ttl).
Proof.
  intros Hs Hr k e s'. unfold Redis.write. simpl. rewrite lookup_insert.
  case_decide; [|apply Hr]. intros [= <-] [= <-]. by subst.
Qed.

Lemma consistent_del (r : Redis.state) (name : string) :
  store_consistent r → store_consistent (Redis.del name r).
Proof.
  intros Hr k e s. unfold Redis.del. simpl. rewrite lookup_delete.
  case_decide; [done|]. apply Hr.
Qed.

Lemma consistent_live (r : Redis.state) (k : string) (s : Session) :
  store_consistent r → Redis.live r k = Some (Redis.Pickled s) →
  session_id s = k ∧ reachable s.
Proof.
  intros Hr. unfold Redis.live.
  destruct (Redis.db r !! k) as [e|] eqn:He; [|done].
  destruct (_ <=? _)%Z; [|done]. intros [= Hv]. by apply (Hr k e s).
Qed.

Lemma consistent_release (r : Redis.state) (name token : string) :
  store_consistent r → store_consistent (Redis.lock_release name token r).2.
Proof.
  intros Hr. unfold Redis.lock_release.
  destruct (Redis.get name r) as [[s|t]|]; [done| |done].
  destruct (String.eqb t token); [by apply consistent_del|done].
Qed.

Lemma consistent_body (sid u hand : string) (r : Redis.state) :
  store_consistent r → store_consistent (choice_body sid u hand r).2.
Proof.
  intros Hr. unfold choice_body. rewrite restore_eq.
  destruct (Redis.live r sid) as [[s|t]|] eqn:Hl; [| |done].
  - destruct (consistent_live r sid s Hr Hl) as [Hid Hs].
    destruct (from_str hand) as [h|e]; [|done].
    destruct (choose u h s) as [[[]|e] s'] eqn:Hch; [|done].
    rewrite store_eq. simpl.
    assert (Hs' : reachable s').
    { pose proof (reachable_exec (CallChoose u h) s Hs) as Hre.
      simpl in Hre. by rewrite Hch in Hre. }
    by apply consistent_write_session.
  - by destruct (String.eqb t "").
Qed.

Lemma consistent_serve (lib : lock_entry) (q : request) (r : Redis.state) :
  store_consistent r → store_consistent (serve lib q r).
Proof.
  intros Hr. destruct q as [p uuid|sid u hand token|sid|sid|dt]; simpl.
  - unfold start. destruct (_ <? 2); [done|].
    rewrite create_eq. simpl.
    destruct (Redis.live r uuid); [done|].
    apply (consistent_write_session r (Session_init uuid _)); [|done].
    by eexists _, _, [].
  - unfold choice_hand, Redis.lock_acquire, Redis.set_px_nx.
    destruct (Redis.live r _).
    + destruct lib; [done|].
      pose proof (consistent_body sid u hand r Hr) as Hb.
      by destruct (choice_body sid u hand r).
    + set (r0 := Redis.write r _ _ _).
      assert (Hr0 : store_consistent r0) by (by apply consistent_write_token).
      pose proof (consistent_body sid u hand r0 Hr0) as Hb.
      destruct (choice_body sid u hand r0) as [res r1]. simpl in Hb.
      pose proof (consistent_release r1 (SessionStore.lock_name sid) token Hb) as Hrel.
      destruct (Redis.lock_release _ _ r1) as [[[]|e] r2]; [|done].
      by destruct res.
  - unfold get. rewrite restore_eq.
    destruct (Redis.live r sid) as [[s|t]|]; [done| |done].
    by destruct (String.eqb t "").
  - unfold session_result. rewrite restore_eq.
    destruct (Redis.live r sid) as [[s|t]|]; [done| |done].
    by destruct (String.eqb t "").
  - done.
Qed.

Lemma serve_all_consistent (lib : lock_entry) (qs : list request) :
  store_consistent (serve_all lib qs empty_store).
Proof.
  induction qs as [|q qs IH] using rev_ind.
  - intros k e s'. simpl. by rewrite lookup_empty.
  - unfold serve_all. rewrite fold_left_app. simpl. by apply consistent_serve.
Qed.

(** X17. Whatever requests have been served since the store was empty,
    and however much time has passed between them, a session restored
    under a key carries that key as its identifier and is a session the
    program can hold, so that it satisfies the invariants of sessions. *)
Theorem restored_sessions_are_sound (lib : lock_entry) (qs : list request)
    (sid : string) (s : Session) :
  let r := serve_all lib qs empty_store in
  store_consistent r ∧
  ((SessionStore.restore sid r).1 = Return s →
     session_id s = sid ∧ reachable s ∧ well_formed s).
Proof.
  intros r.
  assert (Hr : store_consistent r) by apply serve_all_consistent.
  split; [done|]. rewrite restore_eq.
  destruct (Redis.live r sid) as [[s'|t]|] eqn:Hl; [| |done].
  - simpl. intros [= ->]. destruct (consistent_live r sid s Hr Hl) as [Hid Hs].
    split; [done|]. split; [done|]. by apply reachable_well_formed.
  - by destruct (String.eqb t "").
Qed.

Lemma choice_hand_unlocked_no_LockError (lib : lock_entry)
    (sid u hand token : string) (r : Redis.state) :
  store_consistent r →
  Redis.live r (SessionStore.lock_name sid) = None →
  (choice_hand lib sid u hand token r).1 ≠ Raise LockError.
Proof.
  intros Hr Hlock.
  destruct (Redis.live r sid) as [[s|t]|] eqn:Hl.
  - destruct (consistent_live r sid s Hr Hl) as [Hid _].
    rewrite (choice_hand_unlocked_eq lib sid u hand token r s) by done.
    destruct (from_str hand) as [h|e] eqn:Hf.
    + rewrite choose_eq. destruct (bool_decide _ && _); [done|].
      by destruct (PyDict.contains u (choices s)).
    + unfold from_str in Hf. simpl.
      repeat (destruct (String.eqb _ _); [done|]). by injection Hf as <-.
  - unfold choice_hand, Redis.lock_acquire, Redis.set_px_nx. rewrite Hlock.
    unfold choice_body. rewrite restore_eq.
    rewrite live_write_ne, Hl by apply lock_name_ne.
    unfold Redis.lock_release, Redis.get.
    destruct (String.eqb t ""); simpl;
      rewrite live_write_eq by done; by rewrite String.eqb_refl.
  - unfold choice_hand, Redis.lock_acquire, Redis.set_px_nx. rewrite Hlock.
    unfold choice_body. rewrite restore_eq.
    rewrite live_write_ne, Hl by apply lock_name_ne.
    unfold Redis.lock_release, Redis.get.
    rewrite live_write_eq by done. by rewrite String.eqb_refl.
Qed.

(** X18. A lock that its holder never releases blocks the submissions
    for its session for five minutes and no longer: up to and including
    the instant five minutes after it was taken they end with
    [LockError], and once the clock is past it they never do. *)
Theorem contention_ends_with_timeout (lib : lock_entry)
    (sid u hand token holder : string) (r : Redis.state) (dt : Z) :
  store_consistent r →
  Redis.live r (SessionStore.lock_name sid) = None →
  let r1 := (Redis.lock_acquire (SessionStore.lock_name sid) holder
                                SessionStore.lock_timeout r).2 in
  ((dt ≤ 1000 * 300)%Z →
     (choice_hand lib sid u hand token (Redis.advance dt r1)).1 = Raise LockError) ∧
  ((1000 * 300 < dt)%Z →
     (choice_hand lib sid u hand token (Redis.advance dt r1)).1 ≠ Raise LockError).
Proof.
  intros Hr Hlock r1.
  assert (Hr1 : r1 = Redis.write r (SessionStore.lock_name sid) (Redis.Token holder)
                                 (1000 * 300)).
  { subst r1. unfold Redis.lock_acquire, Redis.set_px_nx. by rewrite Hlock. }
  assert (Hl : Redis.live (Redis.advance dt r1) (SessionStore.lock_name sid) =
               if (dt <=? 1000 * 300)%Z then Some (Redis.Token holder) else None).
  { rewrite Hr1. apply live_advance_write. }
  split; intros Hdt.
  - apply choice_hand_lock_held. rewrite Hl.
    destruct (Z.leb_spec dt (1000 * 300)); [eauto|lia].
  - apply choice_hand_unlocked_no_LockError.
    + rewrite Hr1. intros k e s. apply (consistent_write_token r _ holder _ Hr k e s).
    + rewrite Hl. destruct (Z.leb_spec dt (1000 * 300)); [lia|done].
Qed.


(** ** The further properties at work on the scenarios *)

Lemma open_session_reachable : reachable open_session.
Proof. by exists "u1", (UsersIterable ["A"; "B"]), [CallChoose "A" Rock]. Qed.

Lemma rock_scissors_session_reachable : reachable rock_scissors_session.
Proof.
  by exists "u1", (UsersIterable ["A"; "B"; "C"]),
    [CallChoose "A" Rock; CallChoose "B" Scissors; CallChoose "C" Rock].
Qed.

Lemma fresh_session_reachable : reachable fresh_session.
Proof. by exists "u1", (UsersIterable ["A"; "B"]), []. Qed.

Lemma choices_only_grow_witness :
  reachable open_session ∧
  [("A", mkChoice "A" Rock)] `prefix_of`
    choices (run [CallChoose "A" Paper; CallChoose "B" Scissors] open_session).
Proof.
  split; [exact open_session_reachable|].
  exact (proj1 (choices_only_grow open_session
                  [CallChoose "A" Paper; CallChoose "B" Scissors]
                  open_session_reachable)).
Defined.

Lemma closed_session_is_final_witness :
  closed rock_scissors_session ∧
  run [CallChoose "A" Paper; CallResult] rock_scissors_session = rock_scissors_session.
Proof.
  assert (H : closed rock_scissors_session) by (intros u Hu; exact Hu).
  split; [exact H|].
  exact (proj1 (closed_session_is_final rock_scissors_session
                  [CallChoose "A" Paper; CallResult] H)).
Defined.

Lemma everyone_chooses_closes_witness :
  reachable fresh_session ∧
  closed (run [CallChoose "B" Paper; CallJudge; CallChoose "A" Rock] fresh_session).
Proof.
  split; [exact fresh_session_reachable|].
  refine (proj1 (everyone_chooses_closes fresh_session
                   [CallChoose "B" Paper; CallJudge; CallChoose "A" Rock]
                   fresh_session_reachable _)).
  intros u Hu. change (u ∈ ["A"; "B"]) in Hu.
  apply elem_of_cons in Hu as [->|Hu].
  - exists Rock. in_list.
  - apply list_elem_of_singleton in Hu as ->. exists Paper. in_list.
Defined.

Lemma first_choice_wins_witness :
  ("A", mkChoice "A" Scissors) ∈
    choices (run ([CallChoose "B" Rock] ++ CallChoose "A" Scissors :: [CallChoose "A" Paper])
                 (Session_init "u1" (UsersIterable ["A"; "B"]))).
Proof.
  apply first_choice_wins.
  - in_list.
  - intros h' Hin. apply list_elem_of_singleton in Hin. discriminate.
Defined.

Lemma closed_iff_count_witness :
  reachable open_session ∧
  length (choices open_session) ≤
    size (list_to_set (users open_session) : gset string).
Proof.
  split; [exact open_session_reachable|].
  exact (proj1 (closed_iff_count open_session open_session_reachable)).
Defined.

Lemma winners_are_choosers_witness :
  reachable rock_scissors_session ∧
  (judge rock_scissors_session).1 = Return (mkResult RockWin (Some ["A"; "C"])) ∧
  ∃ u, u ∈ PyDict.keys (choices rock_scissors_session) ∧ u ∉ ["A"; "C"].
Proof.
  assert (Hj : (judge rock_scissors_session).1 =
               Return (mkResult RockWin (Some ["A"; "C"]))) by reflexivity.
  split; [exact rock_scissors_session_reachable|]. split; [exact Hj|].
  pose proof (winners_are_choosers rock_scissors_session _
                rock_scissors_session_reachable Hj) as Hw.
  exact (proj2 (proj2 (proj2 (proj2 (proj2 Hw))))).
Defined.

Lemma judge_order_irrelevant_witness :
  choices played_session ≡ₚ choices swapped_session ∧
  ∃ r1 r2, (judge played_session).1 = Return r1 ∧
           (judge swapped_session).1 = Return r2 ∧ status r1 = status r2.
Proof.
  assert (H : choices played_session ≡ₚ choices swapped_session).
  { change ([("A", mkChoice "A" Rock); ("B", mkChoice "B" Scissors)] ≡ₚ
            [("B", mkChoice "B" Scissors); ("A", mkChoice "A" Rock)]).
    apply perm_swap. }
  split; [exact H|].
  destruct (judge_order_irrelevant played_session swapped_session H)
    as (r1 & r2 & H1 & H2 & Hst & _).
  exists r1, r2. split; [exact H1|]. split; [exact H2|exact Hst].
Defined.

Lemma session_without_participants_witness :
  result (Session_init "u1" (UsersDict [("A", "rock")])) =
    (Return (mkResult Draw None), Session_init "u1" (UsersDict [("A", "rock")])) ∧
  choose "A" Rock (Session_init "u1" UsersNotIterable) =
    (Raise NotInSessionError, Session_init "u1" UsersNotIterable).
Proof.
  split.
  - exact (proj2 (proj2 (session_without_participants "u1"
                           (UsersDict [("A", "rock")]) [] I))).
  - exact (proj1 (proj2 (session_without_participants "u1" UsersNotIterable [] I))
             "A" Rock).
Defined.

Lemma start_users_join_witness :
  start_users (String.concat "," ["A"; "B"; "C"]) = ["A"; "B"; "C"].
Proof.
  apply start_users_join.
  - discriminate.
  - repeat (apply Forall_cons; split; [reflexivity|]). apply Forall_nil_2.
Defined.

Lemma started_store_consistent : store_consistent started_store.
Proof. exact (serve_all_consistent EntryRaises [ReqStart "A,B" "u1"]). Qed.

Lemma choice_hand_refines_choose_witness :
  Redis.live started_store "u1" = Some (Redis.Pickled fresh_session) ∧
  session_id fresh_session = "u1" ∧
  Redis.live started_store (SessionStore.lock_name "u1") = None ∧
  (choice_hand EntryRaises "u1" "A" " ROCK " "t1" started_store).1 = Return "u1" ∧
  Redis.live (choice_hand EntryRaises "u1" "A" " ROCK " "t1" started_store).2 "u1" =
    Some (Redis.Pickled open_session).
Proof.
  assert (H1 : Redis.live started_store "u1" = Some (Redis.Pickled fresh_session))
    by reflexivity.
  assert (H2 : session_id fresh_session = "u1") by reflexivity.
  assert (H3 : Redis.live started_store (SessionStore.lock_name "u1") = None)
    by reflexivity.
  split; [exact H1|]. split; [exact H2|]. split; [exact H3|].
  destruct (choice_hand_refines_choose EntryRaises "u1" "A" " ROCK " "t1"
              started_store fresh_session H1 H2 H3) as (Ho & Hl & _).
  split; [exact Ho|exact Hl].
Defined.

Lemma choice_hand_expiry_witness :
  Redis.live (Redis.advance 5000 started_store) "u1" =
    Some (Redis.Pickled fresh_session) ∧
  Redis.db (choice_hand EntryRaises "u1" "Z" "rock" "t1"
              (Redis.advance 5000 started_store)).2 !! "u1" =
    Redis.db (Redis.advance 5000 started_store) !! "u1" ∧
  ∃ s', Redis.db (choice_hand EntryRaises "u1" "A" "rock" "t1"
                    (Redis.advance 5000 started_store)).2 !! "u1" =
          Some (Redis.mkEntry (Redis.Pickled s') (5000 + 1000 * 3600)) ∧
        ∀ dt, SessionStore.restore "u1"
                (Redis.advance dt (choice_hand EntryRaises "u1" "A" "rock" "t1"
                                     (Redis.advance 5000 started_store)).2) =
              (if (dt <=? 1000 * 3600)%Z then Return s'
               else Raise SessionNotFoundError,
               Redis.advance dt (choice_hand EntryRaises "u1" "A" "rock" "t1"
                                   (Redis.advance 5000 started_store)).2).
Proof.
  assert (H1 : Redis.live (Redis.advance 5000 started_store) "u1" =
               Some (Redis.Pickled fresh_session)) by reflexivity.
  assert (H2 : session_id fresh_session = "u1") by reflexivity.
  assert (H3 : Redis.live (Redis.advance 5000 started_store)
                 (SessionStore.lock_name "u1") = None) by reflexivity.
  split; [exact H1|]. split.
  - exact (choice_hand_expiry EntryRaises "u1" "Z" "rock" "t1"
             (Redis.advance 5000 started_store) fresh_session H1 H2 H3).
  - exact (choice_hand_expiry EntryRaises "u1" "A" "rock" "t1"
             (Redis.advance 5000 started_store) fresh_session H1 H2 H3).
Defined.



Lemma contention_ends_with_timeout_witness :
  store_consistent started_store ∧
  (choice_hand EntryRaises "u1" "A" "rock" "t2"
     (Redis.advance 300000 contended_store)).1 = Raise LockError ∧
  (choice_hand EntryRaises "u1" "A" "rock" "t2"
     (Redis.advance 300001 contended_store)).1 ≠ Raise LockError.
Proof.
  assert (H1 : Redis.live started_store (SessionStore.lock_name "u1") = None)
    by reflexivity.
  split; [exact started_store_consistent|]. split.
  - refine (proj1 (contention_ends_with_timeout EntryRaises "u1" "A" "rock" "t2" "t1"
                     started_store 300000 started_store_consistent H1) _).
    reflexivity.
  - refine (proj2 (contention_ends_with_timeout EntryRaises "u1" "A" "rock" "t2" "t1"
                     started_store 300001 started_store_consistent H1) _).
    reflexivity.
Defined.


(** A record is still served, and still shields its key from [create],
    when the clock is exactly on its deadline; one millisecond later it
    is gone.  The same holds for a lock. *)
Example expiry_boundaries :
  (SessionStore.restore "u1" (Redis.advance 3600000 started_store)).1 =
    Return fresh_session ∧
  (SessionStore.restore "u1" (Redis.advance 3600001 started_store)).1 =
    Raise SessionNotFoundError ∧
  SessionStore.create open_session (Redis.advance 3600000 started_store) =
    (Return tt, Redis.advance 3600000 started_store) ∧
  (SessionStore.restore "u1"
     (SessionStore.create open_session (Redis.advance 3600001 started_store)).2).1 =
    Return open_session ∧
  (choice_hand EntryRaises "u1" "A" "rock" "t2"
     (Redis.advance 300000 contended_store)).1 = Raise LockError ∧
  (choice_hand EntryRaises "u1" "A" "rock" "t2"
     (Redis.advance 300001 contended_store)).1 = Return "u1".
Proof. vm_compute. done. Qed.
